(** * Roll groups: a shallow embedding of [scripts/module.mjs]

    The module is an add-on of a game engine (the host).  The helpers that
    decide something by themselves are embedded here as Rocq functions:
    [Module.scaleDiceFormula], [Module.constructParts],
    [Module.constructClone], [Module.rollDamageGroup],
    [Module.rollDamageFromChat], [Module.findItem],
    [Module.createDamageButtons], [Module.createSaveButtons],
    [Module.pickEquippedWeapon], the hook handlers, the filter of the
    weapon picker and its [_scaleCantripDamage], and what the two dialogs
    [GroupConfig] and [SaveConfig] show and store.

    Conventions of the embedding.
    - A JavaScript string is the list of its UTF-16 code units ([list N]);
      the regular expression of [scaleDiceFormula] has no [u] flag and so
      works on code units.
    - A Number is [NInt z] or [NaN].  Doubles compute exactly on the safe
      integers ([safe_integer]); statements that add or print Numbers carry
      that side condition.
    - Calls into the host (notifications, rolls, the console) are recorded
      as a trace of [HostCall]s; a thrown exception is a [Throw] completion. *)

From Stdlib Require Import ZArith NArith List Bool Lia String Ascii.
From Stdlib Require Import DecimalString DecimalZ.
From stdpp Require Import base decidable option list countable gmap.

Open Scope Z_scope.

(** ** JavaScript values *)

Module Js.

Abbreviation jsstring := (list N).

(** A string literal of the source, as code units. *)
Definition lit (s : string) : jsstring :=
  List.map N_of_ascii (list_ascii_of_string s).

(** A Number of the embedding: an integer or [NaN].  Fractions and the
    infinities are left out; no function below makes one from integers. *)
Inductive Num : Type :=
| NInt (z : Z)
| NaN.

(** The values the embedded functions receive where the source takes "a
    number or nothing": [undefined], [null], a boolean or a Number.  Strings
    are left out: their conversion to a Number parses a floating-point
    literal. *)
Inductive JsValue : Type :=
| VUndefined
| VNull
| VBool (b : bool)
| VNum (n : Num).

#[export] Instance Num_eq_dec : EqDecision Num.
Proof. solve_decision. Defined.

#[export] Instance JsValue_eq_dec : EqDecision JsValue.
Proof. solve_decision. Defined.

#[export] Instance Num_countable : Countable Num.
Proof.
  refine (inj_countable'
            (fun n => match n with NInt z => Some z | NaN => None end)
            (fun o => match o with Some z => NInt z | None => NaN end) _).
  intros []; reflexivity.
Defined.

(** [Number.isSafeInteger]. *)
Definition MAX_SAFE_INTEGER : Z := 2 ^ 53 - 1.

Definition safe_integer (z : Z) : Prop :=
  - MAX_SAFE_INTEGER <= z <= MAX_SAFE_INTEGER.

(** ToBoolean: [undefined], [null], [false], [0] and [NaN] are falsy. *)
Definition ToBoolean (v : JsValue) : bool :=
  match v with
  | VUndefined | VNull => false
  | VBool b => b
  | VNum (NInt z) => negb (z =? 0)
  | VNum NaN => false
  end.

(** ToNumber, which is what the call [Number(v)] computes. *)
Definition ToNumber (v : JsValue) : Num :=
  match v with
  | VUndefined => NaN
  | VNull => NInt 0
  | VBool b => NInt (if b then 1 else 0)
  | VNum n => n
  end.

(** [v === n] for a Number [n]: no coercion, and [NaN] equals nothing. *)
Definition strict_equals_num (v : JsValue) (n : Z) : bool :=
  match v with
  | VNum (NInt z) => z =? n
  | _ => false
  end.

(** [v ?? w]. *)
Definition nullish (v : JsValue) : bool :=
  match v with
  | VUndefined | VNull => true
  | _ => false
  end.

Definition coalesce (v w : JsValue) : JsValue :=
  if nullish v then w else v.

Definition num_add (a b : Num) : Num :=
  match a, b with
  | NInt x, NInt y => NInt (x + y)
  | _, _ => NaN
  end.

(** [Math.floor(a / d)] for a positive constant [d]. *)
Definition num_floor_div (a : Num) (d : Z) : Num :=
  match a with
  | NInt x => NInt (x / d)
  | NaN => NaN
  end.

(** Number::toString in radix 10, on integers. *)
Definition Z_to_jsstring (z : Z) : jsstring :=
  lit (NilZero.string_of_int (Z.to_int z)).

Definition NumberToString (n : Num) : jsstring :=
  match n with
  | NInt z => Z_to_jsstring z
  | NaN => lit "NaN"
  end.

(** ToString, as a template literal applies it to a substitution. *)
Definition ToString (v : JsValue) : jsstring :=
  match v with
  | VUndefined => lit "undefined"
  | VNull => lit "null"
  | VBool true => lit "true"
  | VBool false => lit "false"
  | VNum n => NumberToString n
  end.

(** *** Character classes of regular expressions *)

(** [\d] is [0-9] only. *)
Definition is_digit (c : N) : bool := ((48 <=? c) && (c <=? 57))%N.

(** LineTerminator: LF, CR, LS, PS. *)
Definition is_line_terminator (c : N) : bool :=
  ((c =? 10) || (c =? 13) || (c =? 8232) || (c =? 8233))%N.

(** [\s]: WhiteSpace (TAB, VT, FF, ZWNBSP and the space separators) and
    LineTerminator. *)
Definition is_white_space (c : N) : bool :=
  ((c =? 9) || (c =? 11) || (c =? 12) || (c =? 32) || (c =? 160)
   || (c =? 5760) || ((8192 <=? c) && (c <=? 8202)) || (c =? 8239)
   || (c =? 8287) || (c =? 12288) || (c =? 65279))%N
  || is_line_terminator c.

(** [.] without the [s] flag: everything but a line terminator. *)
Definition is_dot (c : N) : bool := negb (is_line_terminator c).

(** The letter [d] under the [i] flag: [d] or [D]. *)
Definition is_d (c : N) : bool := ((c =? 100) || (c =? 68))%N.

(** The value of a string of decimal digits, as [Number] reads it. *)
Definition digit_value (c : N) : Z := Z.of_N c - 48.

Definition digits_value (ds : jsstring) : Z :=
  fold_left (fun acc c => 10 * acc + digit_value c) ds 0.

(** *** A backtracking matcher

    Each combinator takes the input that is left and a continuation for the
    rest of the pattern, in the manner of the language definition.  A greedy
    quantifier first tries one more iteration and gives characters back only
    when the continuation fails. *)

Section Matcher.
Context {R : Type}.

(** [c*] for a class [c], handing the matched text to the continuation. *)
Fixpoint star (cls : N -> bool) (s : jsstring)
    (k : jsstring -> jsstring -> option R) : option R :=
  match s with
  | c :: s' =>
      if cls c then
        match star cls s' (fun m r => k (c :: m) r) with
        | Some x => Some x
        | None => k [] s
        end
      else k [] s
  | [] => k [] s
  end.

(** [c+] is [c c*]. *)
Definition plus (cls : N -> bool) (s : jsstring)
    (k : jsstring -> jsstring -> option R) : option R :=
  match s with
  | c :: s' => if cls c then star cls s' (fun m r => k (c :: m) r) else None
  | [] => None
  end.

(** One character of a class. *)
Definition chr (cls : N -> bool) (s : jsstring)
    (k : jsstring -> option R) : option R :=
  match s with
  | c :: s' => if cls c then k s' else None
  | [] => None
  end.

(** [$] without the [m] flag: the end of the input. *)
Definition eoi (s : jsstring) (x : R) : option R :=
  match s with
  | [] => Some x
  | _ :: _ => None
  end.
End Matcher.

(** *** Plain objects

    [k in o] is HasProperty: it looks at the own properties of [o] and then
    along its prototype chain.  The tables of the host configuration are
    plain objects, as is the literal the source falls back to when a table
    is missing; their prototype is [Object.prototype], whose property names
    are listed here.  A plain object is the finite map of its own
    properties. *)

Definition Object_prototype_keys : list jsstring :=
  lit <$> [ "constructor"; "hasOwnProperty"; "isPrototypeOf";
            "propertyIsEnumerable"; "toLocaleString"; "toString"; "valueOf";
            "__proto__"; "__defineGetter__"; "__defineSetter__";
            "__lookupGetter__"; "__lookupSetter__" ]%string.

Definition inherited (k : jsstring) : bool :=
  bool_decide (k ∈ Object_prototype_keys).

Definition has_property {V} (k : jsstring) (o : gmap jsstring V) : bool :=
  bool_decide (is_Some (o !! k)) || inherited k.

(** [a[n]] on an array for a Number [n]: the element at an index in range,
    [undefined] otherwise. *)
Definition array_get {A} (a : list A) (n : Num) : option A :=
  match n with
  | NInt z => if 0 <=? z then a !! Z.to_nat z else None
  | NaN => None
  end.

(** [a[v]] for a value [v]: only a Number names an element; the property
    keys of the other values name none. *)
Definition array_get_value {A} (a : list A) (v : JsValue) : option A :=
  match v with
  | VNum n => array_get a n
  | _ => None
  end.

(** [a.reduce(f, init)], where [f] also receives the index. *)
Fixpoint reduce_from {A B} (f : B -> A -> nat -> B) (a : list A) (i : nat)
    (acc : B) : B :=
  match a with
  | [] => acc
  | x :: a' => reduce_from f a' (S i) (f acc x i)
  end.

Definition reduce {A B} (f : B -> A -> nat -> B) (a : list A) (init : B) : B :=
  reduce_from f a 0%nat init.

(** *** Completions and the trace of host calls *)

Inductive Exn : Type :=
| TypeError (message : string).

Inductive Completion (A : Type) : Type :=
| Normal (a : A)
| Throw (err : Exn).

Arguments Normal {A} a.
Arguments Throw {A} err.

End Js.

Import Js.

(** ** The documents and tables of the host *)

Module Host.

(** One entry of [system.damage.parts]: the pair of a formula and a damage
    type. *)
Definition DamagePart : Type := jsstring * jsstring.

(** A roll group of the configuration flag: a label and the indices of its
    damage parts; either may be missing. *)
Record Group : Type := {
  label : option jsstring;
  parts : option (list JsValue)
}.

(** [item.flags.rollgroups.config]. *)
Record Config : Type := {
  groups : option (list Group);
  versatile : JsValue;
  bladeCantrip : bool;
  saves : option (list jsstring)
}.

(** [item.system.save]. *)
Record Save : Type := {
  ability : option jsstring;
  dc : JsValue
}.

(** What the module reads of an item.  A field is [None] where the chain of
    optional accesses of the source ends in [undefined]; a method is
    described by whether the item has it (and, for [getSaveDC], by what it
    returns).  [derived_damage_types] holds the [damageType] of each entry
    that [getDerivedDamageLabel] returns, [labels_damageTypes] the text of
    [item.labels.damageTypes]. *)
Record Item : Type := {
  uuid : jsstring;
  name : jsstring;
  item_type : jsstring;
  actor_uuid : option jsstring;
  flags_config : option Config;
  damage_parts : option (list DamagePart);
  system_level : JsValue;
  hasSave : bool;
  save : option Save;
  getSaveDC : option JsValue;
  isVersatile : bool;
  hasDamage : bool;
  derived_damage_types : option (list jsstring);
  labels_damageTypes : option jsstring;
  has_rollDamage : bool;
  has_prepareData : bool
}.

(** [actor.system.details]. *)
Record Actor : Type := {
  level : JsValue;
  spellLevel : JsValue
}.

(** An entry of [CONFIG.<SYSTEM>.abilities]. *)
Record AbilityConfig : Type := {
  ability_label : option jsstring
}.

(** [CONFIG[system]]: the tables of the game system, each possibly
    missing. *)
Record SystemConfig : Type := {
  damageTypes : option (gmap jsstring unit);
  healingTypes : option (gmap jsstring unit);
  abilities : option (gmap jsstring AbilityConfig)
}.

(** A node of a document, known by a handle. *)
Definition Node : Type := N.

(** An element, known by what its queries find. *)
Record Element : Type := {
  querySelectorAll : jsstring -> list Node
}.

Definition querySelector (e : Element) (selector : jsstring) : option Node :=
  head (querySelectorAll e selector).

(** The [html] argument of a render hook, as [createConfigButton] tells the
    cases apart: nothing, an element, a jQuery collection, an array of
    elements, or another object that answers queries. *)
Inductive HookHtml : Type :=
| HtmlMissing
| HtmlElement (e : Element)
| HtmlJQuery (es : list Element)
| HtmlArray (es : list Element)
| HtmlQueryable (e : Element).

Inductive ButtonKind : Type :=
| KDamage
| KHealing
| KMixed.

(** A button of the damage group: its [data-group], [data-item-uuid] and
    [data-actor-uuid] attributes, the kind that picks icon and caption, and
    the label text after the caption. *)
Record DamageButton : Type := {
  data_group : nat;
  data_item_uuid : jsstring;
  data_actor_uuid : jsstring;
  kind : ButtonKind;
  labelText : jsstring
}.

(** A saving throw button: [data-ability], [data-dc] and the label of the
    ability that goes into the caption. *)
Record SaveButton : Type := {
  data_ability : jsstring;
  data_dc : JsValue;
  caption_ability : option jsstring
}.

(** The markup the module inserts into a chat card or an item sheet,
    described by what it is built from. *)
Inductive Markup : Type :=
| DamageButtonsMarkup (bs : list DamageButton)
| SaveButtonsMarkup (bs : list SaveButton)
| BladeCantripMarkup (actor_uuid attack damage : jsstring)
| GroupConfigLink (text : jsstring) (clickable : bool)
| SaveConfigLink (clickable : bool).

(** The click listeners the module attaches. *)
Inductive Listener : Type :=
| RollDamageFromChat
| PickEquippedWeapon
| RollSave.

(** A call into the host that the module makes for its effect. *)
Inductive HostCall : Type :=
| NotifyError (key : jsstring)
| ItemClone (source : Item) (parts : list DamagePart)
| PrepareData (target : Item)
| ConsoleError (message : jsstring) (err : Exn)
| AddEventListener (target : Node) (listener : Listener)
| InsertAfter (anchor : Node) (markup : Markup)
| Append (parent : Node) (markup : Markup)
| RemoveNode (target : Node)
| SetAttribute (target : Node) (attribute value : jsstring)
| MergeObject (title flavor : jsstring)
| StoreContent.

(** What a function of the module did: the host calls it made, in order,
    and how it completed. *)
Record Outcome (A : Type) : Type := {
  trace : list HostCall;
  completion : Completion A
}.

Arguments trace {A} _.
Arguments completion {A} _.

Definition ret {A} (a : A) : Outcome A :=
  {| trace := []; completion := Normal a |}.

Definition throw {A} (e : Exn) : Outcome A :=
  {| trace := []; completion := Throw e |}.

Definition call (c : HostCall) : Outcome unit :=
  {| trace := [c]; completion := Normal tt |}.

Definition bind {A B} (m : Outcome A) (k : A -> Outcome B) : Outcome B :=
  match completion m with
  | Normal a =>
      let r := k a in
      {| trace := trace m ++ trace r; completion := completion r |}
  | Throw e => {| trace := trace m; completion := Throw e |}
  end.

(** [try { body } catch (err) { handler }]. *)
Definition try_catch {A} (body : Outcome A) (handler : Exn -> Outcome A)
    : Outcome A :=
  match completion body with
  | Normal _ => body
  | Throw e =>
      let r := handler e in
      {| trace := trace body ++ trace r; completion := completion r |}
  end.

End Host.

Import Host.

(** [Outcome] is a monad; the binding notation of stdpp sequences the
    statements of a function body. *)
#[export] Instance Outcome_ret : MRet Outcome := @ret.
#[export] Instance Outcome_bind : MBind Outcome := fun A B k m => bind m k.

(** ** The class [Module] of the source (its name is a keyword here, so
    the module is called after [Module.ID])

    *** [Module.scaleDiceFormula] *)

Module Rollgroups.

(** [formula.match(re)] for the pattern of the source, case-insensitive
    and anchored at both ends: a captured run of white space, a captured run
    of one or more digits, optional white space, the letter d, optional
    white space, a captured run of one or more digits, and a captured run of
    any characters up to the end of the input.  The result holds the four
    captures [m[1]], [m[2]], [m[3]], [m[4]], and is [None] for [null].  The
    pattern starts with the anchor, so only position 0 can match. *)
Definition formula_match (formula : jsstring)
    : option (jsstring * jsstring * jsstring * jsstring) :=
  star is_white_space formula (fun m1 r1 =>
  plus is_digit r1 (fun m2 r2 =>
  star is_white_space r2 (fun _ r3 =>
  chr is_d r3 (fun r4 =>
  star is_white_space r4 (fun _ r5 =>
  plus is_digit r5 (fun m3 r6 =>
  star is_dot r6 (fun m4 r7 =>
  eoi r7 (m1, m2, m3, m4)))))))).

Definition scaleDiceFormula (formula : jsstring) (add : JsValue) : jsstring :=
  if negb (ToBoolean add) || strict_equals_num add 0 then formula
  else
    match formula_match formula with
    | Some (leading, m2, sides, rest) =>
        let count := NInt (digits_value m2) in
        let newCount := num_add count (ToNumber add) in
        leading ++ NumberToString newCount ++ lit "d" ++ sides ++ rest
    | None => formula ++ lit " + " ++ ToString add
    end.


(** *** [Module.constructParts], [Module.constructClone],
    [Module.rollDamageGroup] *)

Definition ID : jsstring := lit "rollgroups".

(** [item.flags?.[Module.ID]?.config?.groups?.[idx]?.parts ?? []]. *)
Definition group_parts (item : Item) (idx : Num) : list JsValue :=
  default [] (cfg ← flags_config item; gs ← groups cfg;
              g ← array_get gs idx; parts g).

(** The callback of the [reduce] in [constructParts]: push the part when the
    set of indices has its position. *)
Definition push_if_listed (indices : gset Num) (acc : list DamagePart)
    (part : DamagePart) (i : nat) : list DamagePart :=
  if bool_decide (NInt (Z.of_nat i) ∈ indices) then acc ++ [part] else acc.

(** The result is [None] where the source returns [false]. *)
Definition constructParts (item : Item) (idx : Num)
    : Outcome (option (list DamagePart)) :=
  let raw := group_parts item idx in
  let indices : gset Num := list_to_set (ToNumber <$> raw) in
  let group := reduce (push_if_listed indices) (default [] (damage_parts item)) [] in
  if (length group =? 0)%nat then
    call (NotifyError (lit "ROLLGROUPS.RollGroupEmpty"));;
    mret None
  else mret (Some group).

(** What the host's [item.clone] gives for the change of
    [system.damage.parts]: the same item with these parts.  Nothing else of
    the clone is read afterwards. *)
Definition with_damage_parts (item : Item) (ps : list DamagePart) : Item :=
  {| uuid := uuid item;
     name := name item;
     item_type := item_type item;
     actor_uuid := actor_uuid item;
     flags_config := flags_config item;
     damage_parts := Some ps;
     system_level := system_level item;
     hasSave := hasSave item;
     save := save item;
     getSaveDC := getSaveDC item;
     isVersatile := isVersatile item;
     hasDamage := hasDamage item;
     derived_damage_types := derived_damage_types item;
     labels_damageTypes := labels_damageTypes item;
     has_rollDamage := has_rollDamage item;
     has_prepareData := has_prepareData item |}.

Definition constructClone (item : Item) (ps : list DamagePart) : Outcome Item :=
  call (ItemClone item ps);;
  let clone := with_damage_parts item ps in
  (if has_prepareData clone then call (PrepareData clone) else mret tt);;
  mret clone.

Section Rolls.
Context {Event Options : Type}.

(** The object handed to the host's [rollDamage]. *)
Record RollDamageConfig : Type := {
  critical : bool;
  event : Event;
  roll_spellLevel : JsValue;
  roll_versatile : bool;
  options : Options
}.

(** The value of a call [target.rollDamage?.(config)]: [undefined] when
    the target has no such method, otherwise whatever the host's method
    returns for this target and configuration. *)
Inductive RollValue : Type :=
| RollNull
| RollUndefined
| RollDamageOf (target : Item) (config : RollDamageConfig).

Definition rollDamage_optional (target : Item) (config : RollDamageConfig)
    : RollValue :=
  if has_rollDamage target then RollDamageOf target config else RollUndefined.

(** [rollDamageGroup], with the parameter object after its defaults; the
    value is the one the returned promise resolves to. *)
Definition rollDamageGroup (this : Item) (rollgroup : Num)
    (config : RollDamageConfig) : Outcome RollValue :=
  let group := default [] (cfg ← flags_config this; groups cfg) in
  if (length group =? 0)%nat then mret (rollDamage_optional this config)
  else
    let indices := g ← array_get group rollgroup; parts g in
    if (length (default [] indices) =? 0)%nat then
      call (NotifyError (lit "ROLLGROUPS.RollGroupEmpty"));;
      mret RollNull
    else
      ps ← constructParts this rollgroup;
      match ps with
      | None => mret RollNull
      | Some ps =>
          clone ← constructClone this ps;
          mret (rollDamage_optional clone config)
      end.
End Rolls.

Arguments RollDamageConfig : clear implicits.
Arguments RollValue : clear implicits.

(** *** [Module.createDamageButtons], [Module.createSaveButtons] *)

(** A string is truthy when it is not empty. *)
Definition truthy (s : jsstring) : bool := negb (length s =? 0)%nat.

Definition validParts (item : Item) : list DamagePart :=
  List.filter (fun p : DamagePart => truthy p.1) (default [] (damage_parts item)).

Section WithConfig.
(** [CONFIG[Module.system.toUpperCase()]]. *)
Variable CONFIG_system : option SystemConfig.

(** [t && (t in (table ?? {}))] for a damage type [t] that may be
    [undefined]. *)
Definition type_in (table : option (gmap jsstring unit))
    (t : option jsstring) : bool :=
  match t with
  | Some t => truthy t && has_property t (default ∅ table)
  | None => false
  end.

Definition damage_button (item : Item) (g : Group) (idx : nat) : DamageButton :=
  let types :=
    (fun t => snd <$> array_get_value (validParts item) t) <$> default [] (parts g) in
  let isDamage := forallb (type_in (CONFIG_system ≫= damageTypes)) types in
  let isHealing := forallb (type_in (CONFIG_system ≫= healingTypes)) types in
  {| data_group := idx;
     data_item_uuid := uuid item;
     data_actor_uuid := default [] (actor_uuid item);
     kind := if isDamage then KDamage else if isHealing then KHealing else KMixed;
     labelText :=
       match label g with
       | Some l => if truthy l then lit "(" ++ l ++ lit ")" else []
       | None => []
       end |}.

(** The result stands for the serialised children of the container:
    [None] is [null], [Some bs] the markup of the buttons [bs]. *)
Definition createDamageButtons (item : Item) : option (list DamageButton) :=
  let gs := cfg ← flags_config item; groups cfg in
  let hasGroups :=
    match gs with
    | Some gs => (0 <? length gs)%nat
    | None => false
    end && (1 <? length (validParts item))%nat in
  if negb hasGroups then None
  else
    Some (reduce (fun acc g idx => acc ++ [damage_button item g idx])
                 (default [] gs) []).

(** [CONFIG[system].abilities[abi].label]: reading a property of
    [undefined] throws; an inherited member has no label.  The messages are
    those of the engine; where the table is missing the engine adds the
    name of the key that was read. *)
Definition abilities_label (abi : jsstring) : Outcome (option jsstring) :=
  match CONFIG_system with
  | None =>
      throw (TypeError
               "Cannot read properties of undefined (reading 'abilities')")
  | Some sys =>
      match abilities sys with
      | None => throw (TypeError "Cannot read properties of undefined")
      | Some table =>
          match table !! abi with
          | Some a => mret (ability_label a)
          | None =>
              if inherited abi then mret None
              else
                throw (TypeError
                         "Cannot read properties of undefined (reading 'label')")
          end
      end
  end.

(** The callback of the [filter] over the configured abilities. *)
Definition extra_save (item : Item) (abi : jsstring) : bool :=
  bool_decide (Some abi ≠ (save item ≫= ability))
  && has_property abi (default ∅ (CONFIG_system ≫= abilities)).

(** One button of the loop.  [getSaveDC] of the item stands for what the
    host method returns and [game.i18n.format] for a function that returns:
    the two calls are not recorded in the trace and cannot fail here; the
    caption is kept as the label that goes into it. *)
Definition save_button (item : Item) (abi : jsstring) : Outcome SaveButton :=
  let dc :=
    coalesce (coalesce (default VUndefined (getSaveDC item))
                       (default VUndefined (dc <$> save item)))
             (VNum (NInt 10)) in
  l ← abilities_label abi;
  mret {| data_ability := abi; data_dc := dc; caption_ability := l |}.

Definition createSaveButtons (item : option Item)
    : Outcome (option (list SaveButton)) :=
  match item with
  | None => mret None
  | Some item =>
      if negb (hasSave item) then mret None
      else
        let saves :=
          List.filter (extra_save item)
                      (default [] (cfg ← flags_config item; saves cfg)) in
        if (length saves =? 0)%nat then mret None
        else
          bs ← mapM (save_button item) saves;
          mret (Some bs)
  end.
End WithConfig.

(** *** The hook handlers *)

Definition isNumeric (v : JsValue) : bool :=
  match ToNumber v with
  | NInt _ => true
  | NaN => false
  end.

(** [`${v}`] for a property that holds a string or is missing. *)
Definition string_or_undefined (v : option jsstring) : jsstring :=
  default (lit "undefined") v.

(** What [this] is when a handler runs: the handlers are handed to the host
    as plain functions, so it is whatever the host calls them on. *)
Inductive This : Type :=
| ThisUndefined
| ThisObject (ID : option jsstring).

(** [for (const n of nodes) body(n)] and [nodes.forEach(body)]. *)
Fixpoint for_each {A} (body : A -> Outcome unit) (l : list A) : Outcome unit :=
  match l with
  | [] => mret tt
  | x :: l' => body x;; for_each body l'
  end.

(** The element [createConfigButton] works on. *)
Definition root_of (html : HookHtml) : option Element :=
  match html with
  | HtmlMissing => None
  | HtmlElement e => Some e
  | HtmlJQuery es => head es
  | HtmlArray es => head es
  | HtmlQueryable e => Some e
  end.

Section Hooks.
(** [Module.system.toUpperCase()], [CONFIG] at that key, and
    [game.i18n.localize], a function of the host that may throw. *)
Variable system : jsstring.
Variable CONFIG_system : option SystemConfig.
Variable localize : jsstring -> Outcome jsstring.

(** The statements inside the [try] of [manageCardButtons], in four
    steps.  [el] is the element made from [data.content]; the buttons the
    handler inserts match none of its later selectors, so every query is
    answered by the card as it came. *)

(** Put the buttons of [createDamageButtons], when there are any, in the
    place of the damage button. *)
Definition replace_damage_button (damageButton : Node)
    (buttons : option (list DamageButton)) : Outcome unit :=
  match buttons with
  | Some bs =>
      call (InsertAfter damageButton (DamageButtonsMarkup bs));;
      call (RemoveNode damageButton)
  | None => mret tt
  end.

(** Adjust the versatile button. *)
Definition adjust_versatile (item : Item) (el : Element)
    (buttons : option (list DamageButton)) : Outcome unit :=
  let versatile_group :=
    default VUndefined (versatile <$> flags_config item) in
  if bool_decide (is_Some buttons) && isNumeric versatile_group
     && isVersatile item
  then
    match
      match querySelector el (lit "[data-action='versatile']") with
      | Some n => Some n
      | None =>
          querySelector el
            (lit "[data-action='rollgroup-damage'][data-versatile]")
      end
    with
    | Some vers =>
        call (SetAttribute vers (lit "data-action")
                (lit "rollgroup-damage-versatile"));;
        call (SetAttribute vers (lit "data-group")
                (ToString versatile_group));;
        call (SetAttribute vers (lit "data-item-uuid") (uuid item));;
        call (SetAttribute vers (lit "data-actor-uuid")
                (default [] (actor_uuid item)))
    | None => mret tt
    end
  else mret tt.

(** Create the blade cantrip buttons if eligible and enabled. *)
Definition add_blade_cantrip (item : Item) (el : Element) : Outcome unit :=
  if default false (bladeCantrip <$> flags_config item)
     && bool_decide (item_type item = lit "spell")
     && strict_equals_num (system_level item) 0
     && hasDamage item
  then
    attack ← localize (lit "ROLLGROUPS.BladeCantripAttack");
    damage ← localize (lit "ROLLGROUPS.BladeCantripDamage");
    match querySelector el (lit ".card-buttons") with
    | Some card_buttons =>
        call (Append card_buttons
                (BladeCantripMarkup (default [] (actor_uuid item))
                   attack damage))
    | None => mret tt
    end
  else mret tt.

(** Add more saving throw buttons. *)
Definition add_save_buttons (item : Item) (el : Element) : Outcome unit :=
  saveButtons ← createSaveButtons CONFIG_system (Some item);
  match saveButtons with
  | Some bs =>
      match querySelector el (lit "button[data-action=save]") with
      | Some save => call (InsertAfter save (SaveButtonsMarkup bs))
      | None => mret tt
      end
  | None => mret tt
  end.

Definition manageCardButtons_body (item : Item) (el : Element)
    : Outcome unit :=
  match
    querySelector el (lit ".card-buttons button[data-action='damage']")
  with
  | Some damageButton =>
      let buttons := createDamageButtons CONFIG_system item in
      replace_damage_button damageButton buttons;;
      adjust_versatile item el buttons;;
      add_blade_cantrip item el
  | None => mret tt
  end;;
  add_save_buttons item el;;
  call StoreContent.

(** Hooked on [preDisplayCard].  The handler of the [catch] reads
    [this.ID]. *)
Definition manageCardButtons (this : This) (item : Item) (el : Element)
    : Outcome unit :=
  try_catch (manageCardButtons_body item el)
    (fun err =>
       match this with
       | ThisUndefined =>
           throw (TypeError
                    "Cannot read properties of undefined (reading 'ID')")
       | ThisObject id =>
           call (ConsoleError
                   (string_or_undefined id ++ lit " | manageCardButtons error")
                   err)
       end).

(** The statements inside the [try] of [createConfigButton]. *)
Definition createConfigButton_body (sheet_isEditable : bool) (html : HookHtml)
    : Outcome unit :=
  match root_of html with
  | None => mret tt
  | Some root =>
      match querySelector root (lit ".add-damage") with
      | Some addDamage =>
          text ← localize (lit "ROLLGROUPS.GroupConfig");
          call (InsertAfter addDamage (GroupConfigLink text sheet_isEditable))
      | None => mret tt
      end;;
      match querySelector root (lit "[name='system.save.scaling']") with
      | Some saveScaling =>
          call (InsertAfter saveScaling (SaveConfigLink sheet_isEditable))
      | None => mret tt
      end
  end.

(** Hooked on [renderItemSheet]. *)
Definition createConfigButton (sheet_isEditable : bool) (html : HookHtml)
    : Outcome unit :=
  try_catch (createConfigButton_body sheet_isEditable html)
    (fun err =>
       call (ConsoleError (ID ++ lit " | createConfigButton error") err)).

(** Hooked on [renderChatMessage].  Its body is not inside a [try]; the
    call [html.querySelectorAll(...)] throws when [html] has no such
    method, as a jQuery collection or an array has none. *)
Definition createChatLogListeners (html : HookHtml) : Outcome unit :=
  match html with
  | HtmlMissing => mret tt
  | HtmlElement e | HtmlQueryable e =>
      for_each (fun n => call (AddEventListener n RollDamageFromChat))
        (querySelectorAll e (lit "[data-action^='rollgroup-damage']"));;
      for_each (fun n => call (AddEventListener n PickEquippedWeapon))
        (querySelectorAll e (lit "[data-action^='rollgroup-bladecantrip']"));;
      for_each (fun n => call (AddEventListener n RollSave))
        (querySelectorAll e (lit "[data-action='save'][data-dc]"))
  | HtmlJQuery _ | HtmlArray _ =>
      throw (TypeError "html.querySelectorAll is not a function")
  end.

(** The damage types of the roll, each once, as the [Set] holds them;
    their order plays no part below. *)
Definition damage_labels (item : Item) : list jsstring :=
  remove_dups (default [] (derived_damage_types item)).

(** The statements inside the [try] of [variantDamageLabels]. *)
Definition variantDamageLabels_body (item : Item) : Outcome unit :=
  let labels := damage_labels item in
  let isTemp :=
    (length labels =? 1)%nat && bool_decide (lit "temphp" ∈ labels) in
  let string :=
    if forallb (fun t => has_property t
                           (default ∅ (CONFIG_system ≫= healingTypes)))
               labels
    then system ++ lit ".Healing"
    else system ++ lit ".DamageRoll" in
  actionFlavor ← localize string;
  let title := name item ++ lit " - " ++ actionFlavor in
  flavor ←
    (if isTemp then
       temp ← localize (system ++ lit ".Temp");
       mret (title ++ lit " (" ++ temp ++ lit ")")
     else if (0 <? length (default [] (labels_damageTypes item)))%nat then
       mret (title ++ lit " (" ++ default [] (labels_damageTypes item)
               ++ lit ")")
     else mret title);
  call (MergeObject title flavor).

(** Hooked on [preRollDamage]. *)
Definition variantDamageLabels (item : option Item) : Outcome unit :=
  match item with
  | None => mret tt
  | Some item =>
      try_catch (variantDamageLabels_body item)
        (fun err =>
           call (ConsoleError (ID ++ lit " | variantDamageLabels") err))
  end.
End Hooks.

(** *** [Module.findItem], [Module.rollDamageFromChat] *)

(** [s.endsWith(t)]. *)
Definition endsWith (s t : jsstring) : bool := bool_decide (t `suffix_of` s).

Section Chat.
Context {Event : Type}.

(** What the two functions read of a click on a button of a chat card.
    [itemData] is the item that the data embedded in the message describes,
    [None] when there is no message or no such data; [owner_found] tells
    whether the host finds the actor of [data-actor-uuid]; [item_by_uuid]
    is what the host finds for [data-item-uuid].  The attributes
    [data-group] and [data-spell-level] are [None] when absent and
    otherwise hold what [Number] makes of their text: an integer, or [NaN]
    for a text that is no number.  A text for a number that is no integer
    is outside the model. *)
Record ChatClick : Type := {
  click_event : Event;
  itemData : option Item;
  owner_found : bool;
  item_by_uuid : option Item;
  group_attr : option Num;
  spellLevel_attr : option Num;
  action_attr : option jsstring
}.

Definition findItem (click : ChatClick) : Outcome (option Item) :=
  match itemData click with
  | Some item =>
      if negb (owner_found click) then
        call (NotifyError (lit "ROLLGROUPS.ItemOwnerMissing"));;
        mret None
      else
        (if has_prepareData item then call (PrepareData item) else mret tt);;
        mret (Some item)
  | None => mret (item_by_uuid click)
  end.

(** The object handed to [rollDamage] by [rollDamageFromChat]. *)
Record ChatRollConfig : Type := {
  chat_event : Event;
  chat_spellLevel : JsValue;
  chat_versatile : bool
}.

(** What [rollDamageFromChat] returns: [undefined], or whatever the host's
    [rollDamage] returns for this target and configuration. *)
Inductive ChatRoll : Type :=
| ChatUndefined
| ChatRollDamageOf (target : Item) (config : ChatRollConfig).

(** The index handed to [constructParts]: the number of [data-group] when
    it is finite, otherwise the text itself or [undefined], which name no
    group of the array, as [NaN] names none. *)
Definition chat_group (click : ChatClick) : Num :=
  match group_attr click with
  | Some (NInt z) => NInt z
  | _ => NaN
  end.

Definition rollDamageFromChat (click : ChatClick) : Outcome ChatRoll :=
  item ← findItem click;
  match item with
  | None => mret ChatUndefined
  | Some item =>
      ps ← constructParts item (chat_group click);
      match ps with
      | None => mret ChatUndefined
      | Some ps =>
          clone ← constructClone item ps;
          let config :=
            {| chat_event := click_event click;
               chat_spellLevel :=
                 match spellLevel_attr click with
                 | Some (NInt z) => VNum (NInt z)
                 | _ => system_level item
                 end;
               chat_versatile :=
                 endsWith (default [] (action_attr click)) (lit "versatile") |} in
          if has_rollDamage clone then mret (ChatRollDamageOf clone config)
          else throw (TypeError "clone.rollDamage is not a function")
      end
  end.
End Chat.

Arguments ChatClick : clear implicits.
Arguments ChatRollConfig : clear implicits.
Arguments ChatRoll : clear implicits.

End Rollgroups.

(** ** The class [WeaponPicker] *)

Module WeaponPicker.

(** What [_scaleCantripDamage] reads of the dialog. *)
Record Picker : Type := {
  cantrip : option Item;
  actor : option Actor
}.

(** The roll configuration it returns; [rc_type] is [None] for [null]. *)
Record CantripDamage : Type := {
  rc_parts : list jsstring;
  rc_type : option jsstring
}.

(** [actor?.system?.details?.level ?? actor?.system?.details?.spellLevel
    ?? 1], before [Number] is applied to it. *)
Definition actor_level (this : Picker) : JsValue :=
  coalesce (coalesce (default VUndefined (level <$> actor this))
                     (default VUndefined (spellLevel <$> actor this)))
           (VNum (NInt 1)).

Definition _scaleCantripDamage (this : Picker) : CantripDamage :=
  match cantrip this ≫= damage_parts with
  | None | Some [] => {| rc_parts := []; rc_type := None |}
  | Some (part :: _) =>
      let level := ToNumber (actor_level this) in
      let add := num_floor_div (num_add level (NInt 1)) 6 in
      let formula := Rollgroups.scaleDiceFormula part.1 (VNum add) in
      {| rc_parts := [formula]; rc_type := Some part.2 |}
  end.

(** An item of the actor, with the further properties the picker reads of
    it. *)
Record Weapon : Type := {
  weapon_item : Item;
  equipped : bool;
  hasAttack : bool;
  has_rollAttack : bool
}.

(** The filter of the constructor: the equipped weapons of the actor that
    have an attack and damage; a creature's weapons need not be
    equipped. *)
Definition equippedWeapons (isNPC : bool) (items : list Weapon) : list Weapon :=
  List.filter
    (fun w => bool_decide (item_type (weapon_item w) = lit "weapon")
              && (isNPC || equipped w)
              && hasAttack w
              && hasDamage (weapon_item w))
    items.

(** What [pickEquippedWeapon] does and returns: a warning and [null], the
    rendered dialog, [undefined] from an optional call on a missing method,
    or the value of the host's [rollAttack] or [rollDamage] on the one
    weapon; the damage roll carries the options
    [{ rollConfigs: _scaleCantripDamage() }]. *)
Inductive Pick : Type :=
| PickWarnNoWeapons
| PickRender
| PickUndefined
| PickRollAttack (w : Weapon)
| PickRollDamage (w : Weapon) (rollConfigs : CantripDamage).

Section Pick.
Variable CONFIG_system : option SystemConfig.

(** [picker] and [weps] are the dialog the function builds from the event
    and its equipped weapons; [action] is [data-action] of the button. *)
Definition pickEquippedWeapon (picker : Picker) (weps : list Weapon)
    (action : option jsstring) : Pick :=
  match weps with
  | [] => PickWarnNoWeapons
  | w :: more =>
      if (1 <? length weps)%nat then PickRender
      else if Rollgroups.endsWith (default [] action) (lit "attack") then
        if has_rollAttack w then PickRollAttack w else PickUndefined
      else if isVersatile (weapon_item w)
              || bool_decide
                   (is_Some (Rollgroups.createDamageButtons CONFIG_system
                               (weapon_item w)))
      then PickRender
      else if has_rollDamage (weapon_item w)
      then PickRollDamage w (_scaleCantripDamage picker)
      else PickUndefined
  end.
End Pick.

End WeaponPicker.

(** ** The class [GroupConfig] *)

Module GroupConfig.

(** A damage part as the dialog lists it. *)
Record PartRow : Type := {
  part_formula : jsstring;
  part_label : jsstring;
  part_idx : nat
}.

(** A check box of a group: one for each damage part. *)
Record Row : Type := {
  row_formula : jsstring;
  row_label : jsstring;
  checked : bool;
  row_name : jsstring
}.

Record GroupRows : Type := {
  group_label : jsstring;
  group_idx : nat;
  rows : list Row
}.

(** The choice of the versatile group; its constant captions are left
    out.  [versatile_value] is [None] for [null]. *)
Record VersatileField : Type := {
  versatile_value : option Z;
  choices : list jsstring
}.

Record Context : Type := {
  ctx_parts : list PartRow;
  ctx_groups : list GroupRows;
  ctx_hasDamage : bool;
  ctx_isVersatile : bool;
  ctx_versatile : option VersatileField;
  ctx_isCantrip : bool;
  ctx_cantrip : option bool
}.

(** A group of the submitted form: [Object.values] of the groups object
    gives these in order.  The entries of [sub_parts] are those of the parts
    object, each key as [Number] reads it, each value as a boolean. *)
Record SubmittedGroup : Type := {
  sub_label : option jsstring;
  sub_parts : option (list (Num * bool))
}.

(** [ToIntegerOrInfinity] of the start of a [splice], made relative to the
    length. *)
Definition splice_start (len : nat) (start : Num) : nat :=
  match start with
  | NaN => 0%nat
  | NInt z =>
      if z <? 0 then Z.to_nat (Z.max (Z.of_nat len + z) 0)
      else Nat.min (Z.to_nat z) len
  end.

(** [a.splice(start, 1)], as the array it leaves. *)
Definition splice1 {A} (a : list A) (start : Num) : list A :=
  let i := splice_start (length a) start in
  take i a ++ drop (S i) a.

Section Dialog.
(** The label of a damage type in the merged type tables of the system, or
    the localised ["None"]; and [game.i18n.localize], taken here as a
    function that returns. *)
Variable type_label : jsstring -> jsstring.
Variable localize : jsstring -> jsstring.

Definition context_parts (document : Item) : list PartRow :=
  imap (fun idx (p : DamagePart) =>
          {| part_formula := p.1; part_label := type_label p.2;
             part_idx := idx |})
       (default [] (damage_parts document)).

Definition group_rows (parts : list PartRow) (i : nat) (g : Group) : GroupRows :=
  let partsSet : gset Num := list_to_set (ToNumber <$> default [] (Host.parts g)) in
  {| group_label := default [] (label g);
     group_idx := i;
     rows :=
       (fun p =>
          {| row_formula := part_formula p;
             row_label := part_label p;
             checked := bool_decide (NInt (Z.of_nat (part_idx p)) ∈ partsSet);
             row_name :=
               lit "flags.rollgroups.config.groups." ++ Z_to_jsstring (Z.of_nat i)
                 ++ lit ".parts." ++ Z_to_jsstring (Z.of_nat (part_idx p)) |})
         <$> parts |}.

Definition _prepareContext (document : Item) : Context :=
  let parts := context_parts document in
  let config := flags_config document in
  let groups := imap (group_rows parts) (default [] (config ≫= groups)) in
  let isVersatile := hasDamage document && isVersatile document in
  let isCantrip :=
    hasDamage document
    && bool_decide (item_type document = lit "spell")
    && strict_equals_num (system_level document) 0 in
  {| ctx_parts := parts;
     ctx_groups := groups;
     ctx_hasDamage := hasDamage document;
     ctx_isVersatile := isVersatile;
     ctx_versatile :=
       if isVersatile then
         let choices :=
           (fun g => if Rollgroups.truthy (group_label g) then group_label g
                     else localize (lit "ROLLGROUPS.GroupPlaceholder"))
             <$> groups in
         let value := default VUndefined (versatile <$> config) in
         Some {| versatile_value :=
                   match ToNumber value with
                   | NInt z =>
                       if z <? Z.of_nat (length choices) then Some z else None
                   | NaN => None
                   end;
                 choices := choices |}
       else None;
     ctx_isCantrip := isCantrip;
     ctx_cantrip :=
       if isCantrip then Some (default false (bladeCantrip <$> config))
       else None |}.

(** The groups [_prepareSubmitData] writes back into the submitted data. *)
Definition _prepareSubmitData (raw : option (list SubmittedGroup))
    : list Group :=
  (fun g =>
     let p :=
       (fun kv : Num * bool => VNum kv.1)
         <$> List.filter (fun kv : Num * bool => kv.2)
                         (default [] (sub_parts g)) in
     let l := default [] (sub_label g) in
     {| label := Some (if Rollgroups.truthy l then l
                       else localize (lit "ROLLGROUPS.GroupPlaceholder"));
        Host.parts := Some p |})
    <$> default [] raw.
End Dialog.

(** The groups [_onAddGroup] hands to [setFlag]. *)
Definition _onAddGroup (flag : option (list Group)) : list Group :=
  default [] flag ++ [ {| label := Some []; Host.parts := Some [] |} ].

(** The groups [_onDeleteGroup] hands to [setFlag]; [idx] is what [Number]
    makes of [data-idx], [NaN] when there is no such attribute. *)
Definition _onDeleteGroup (flag : option (list Group)) (idx : Num) : list Group :=
  splice1 (default [] flag) idx.

End GroupConfig.

(** ** The class [SaveConfig] *)

Module SaveConfig.

(** A check box of the dialog: one for each ability of the system. *)
Record AbilityRow : Type := {
  ability_value : bool;
  ability_name : jsstring;
  ability_row_label : option jsstring;
  ability_disabled : bool;
  rootId : jsstring
}.

(** [entries] is [Object.entries] of the abilities table, [document_id] the
    id of the document. *)
Definition _prepareContext (entries : list (jsstring * AbilityConfig))
    (document_id : jsstring) (document : Item) : list AbilityRow :=
  let configSet : gset jsstring :=
    list_to_set (default [] (cfg ← flags_config document; saves cfg)) in
  (fun e : jsstring * AbilityConfig =>
     {| ability_value := bool_decide (e.1 ∈ configSet);
        ability_name := lit "flags.rollgroups.config.saves." ++ e.1;
        ability_row_label := ability_label e.2;
        ability_disabled := bool_decide (Some e.1 = (save document ≫= ability));
        rootId := document_id |})
    <$> entries.

(** The saves [_prepareSubmitData] writes back: the keys of the submitted
    object whose value is truthy, in its order. *)
Definition _prepareSubmitData (raw : option (list (jsstring * bool)))
    : list jsstring :=
  reduce (fun acc (kv : jsstring * bool) (_ : nat) =>
            if kv.2 then acc ++ [kv.1] else acc)
         (default [] raw) [].

End SaveConfig.

Import Rollgroups WeaponPicker.

(** ** Vocabulary of the statements *)

Module Spec.

(** A formula that begins with a dice term: optional leading white space,
    the digits of the dice count, the letter d in either case with optional
    white space on both sides, the digits of the die size, and a
    remainder. *)
Record DiceTerm : Type := {
  t_leading : jsstring;
  t_count : jsstring;
  t_sep1 : jsstring;
  t_letter : N;
  t_sep2 : jsstring;
  t_sides : jsstring;
  t_rest : jsstring
}.

Definition text (t : DiceTerm) : jsstring :=
  t_leading t ++ t_count t ++ t_sep1 t ++ t_letter t :: t_sep2 t
    ++ t_sides t ++ t_rest t.

Definition all (cls : N -> bool) (s : jsstring) : Prop :=
  Forall (fun c => cls c = true) s.

Record well_formed (t : DiceTerm) : Prop := {
  wf_leading : all is_white_space (t_leading t);
  wf_count : all is_digit (t_count t);
  wf_count_ne : t_count t ≠ [];
  wf_sep1 : all is_white_space (t_sep1 t);
  wf_letter : is_d (t_letter t) = true;
  wf_sep2 : all is_white_space (t_sep2 t);
  wf_sides : all is_digit (t_sides t);
  wf_sides_ne : t_sides t ≠ []
}.

Definition begins_with_dice (formula : jsstring) : Prop :=
  exists t, well_formed t /\ formula = text t.

(** The formula of a dice term in which nothing but the count is rewritten,
    to the decimal form of the count plus [a]. *)
Definition with_count (t : DiceTerm) (count : jsstring) : DiceTerm :=
  {| t_leading := t_leading t; t_count := count; t_sep1 := t_sep1 t;
     t_letter := t_letter t; t_sep2 := t_sep2 t; t_sides := t_sides t;
     t_rest := t_rest t |}.

Definition only_count_rewritten (t : DiceTerm) (a : Z) : jsstring :=
  text (with_count t (Z_to_jsstring (digits_value (t_count t) + a))).

(** [begins_with_dice] is decided by a scan from the left: [skip] passes
    over a run of a class, [skip1] over a run of at least one character,
    [expect] over one character. *)
Fixpoint skip (cls : N -> bool) (s : jsstring) : jsstring :=
  match s with
  | c :: s' => if cls c then skip cls s' else s
  | [] => []
  end.

Definition skip1 (cls : N -> bool) (s : jsstring) : option jsstring :=
  match s with
  | c :: s' => if cls c then Some (skip cls s') else None
  | [] => None
  end.

Definition expect (cls : N -> bool) (s : jsstring) : option jsstring :=
  match s with
  | c :: s' => if cls c then Some s' else None
  | [] => None
  end.

(** The scan gives what follows the letter d and its white space: the die
    size and the remainder. *)
Definition scan (formula : jsstring) : option jsstring :=
  r ← skip1 is_digit (skip is_white_space formula);
  r' ← expect is_d (skip is_white_space r);
  _ ← skip1 is_digit (skip is_white_space r');
  Some (skip is_white_space r').

Definition begins_with_diceb (formula : jsstring) : bool :=
  bool_decide (is_Some (scan formula)).

(** The next character, if there is one, is outside the class. *)
Definition stops (cls : N -> bool) (s : jsstring) : Prop :=
  match s with
  | c :: _ => cls c = false
  | [] => True
  end.

(** Position [i] appears in the list of indices of a group, once its
    entries are coerced to numbers. *)
Definition listed (raw : list JsValue) (i : nat) : Prop :=
  NInt (Z.of_nat i) ∈ (ToNumber <$> raw).

#[export] Instance listed_dec raw i : Decision (listed raw i).
Proof. unfold listed. apply _. Defined.

(** The entries of [ps] at the listed positions, in the order of [ps];
    [select_from] numbers the positions from [i] on. *)
Definition select_from (raw : list JsValue) (i : nat) (ps : list DamagePart)
    : list DamagePart :=
  snd <$> filter (fun ip => listed raw ip.1) (imap (fun j p => ((i + j)%nat, p)) ps).

Definition selection (raw : list JsValue) (ps : list DamagePart)
    : list DamagePart :=
  select_from raw 0 ps.

(** The damage parts with a formula that is not empty. *)
Definition parts_with_formula (item : Item) : list DamagePart :=
  filter (fun p : DamagePart => p.1 ≠ []) (default [] (damage_parts item)).

(** The groups of the configuration of an item, none when it has no
    configuration. *)
Definition configured_groups (item : Item) : list Group :=
  default [] (cfg ← flags_config item; groups cfg).

(** The abilities of the configuration that the filter of
    [createSaveButtons] lets through. *)
Definition extra_saves (CONFIG_system : option SystemConfig) (item : Item)
    : list jsstring :=
  List.filter (extra_save CONFIG_system item)
              (default [] (cfg ← flags_config item; saves cfg)).

(** The first damage part of the cantrip of a picker. *)
Definition first_part (this : Picker) : option DamagePart :=
  ps ← cantrip this ≫= damage_parts; head ps.

(** The level of the actor, 1 when it is absent. *)
Definition level_or_1 (this : Picker) : JsValue :=
  match actor this with
  | Some a => if nullish (level a) then VNum (NInt 1) else level a
  | None => VNum (NInt 1)
  end.

(** The level of the actor; when it is absent the spell level of the actor;
    1 when both are absent. *)
Definition level_or_spellLevel_or_1 (this : Picker) : JsValue :=
  match actor this with
  | Some a =>
      if nullish (level a) then
        if nullish (spellLevel a) then VNum (NInt 1) else spellLevel a
      else level a
  | None => VNum (NInt 1)
  end.

(** The first part with its formula rewritten by the increment
    [floor((L + 1) / 6)] for the level [L]; nothing without a first part. *)
Definition cantrip_increment (L : Num) : Num :=
  match L with
  | NInt z => NInt ((z + 1) / 6)
  | NaN => NaN
  end.

Definition scaled_first_part (L : JsValue) (this : Picker) : CantripDamage :=
  match first_part this with
  | Some part =>
      {| rc_parts := [scaleDiceFormula part.1
                        (VNum (cantrip_increment (ToNumber L)))];
         rc_type := Some part.2 |}
  | None => {| rc_parts := []; rc_type := None |}
  end.

(** The item a roll went to, if the host's [rollDamage] was called. *)
Definition rolled_target {Event Options} (v : RollValue Event Options)
    : option Item :=
  match v with
  | RollDamageOf target _ => Some target
  | _ => None
  end.

Definition chat_rolled_target {Event} (v : ChatRoll Event) : option Item :=
  match v with
  | ChatRollDamageOf target _ => Some target
  | ChatUndefined => None
  end.

(** The calls of [constructClone] on an item and parts. *)
Definition clone_calls (item : Item) (ps : list DamagePart) : list HostCall :=
  ItemClone item ps
  :: (if has_prepareData item then [PrepareData (with_damage_parts item ps)]
      else []).

(** The damage parts of an item whose check box is ticked in a group of the
    dialog. *)
Definition ticked_parts (g : GroupConfig.GroupRows) (item : Item)
    : list DamagePart :=
  snd <$> filter (fun rp : GroupConfig.Row * DamagePart => GroupConfig.checked rp.1 = true)
                 (zip (GroupConfig.rows g) (default [] (damage_parts item))).

(** The group of the form data that the check boxes of a group of the
    dialog submit when they are left as shown: the name of each row puts
    its box under the position of its part in the parts object of the
    group, and the label field holds the label shown. *)
Definition form_of_rows (g : GroupConfig.GroupRows) : GroupConfig.SubmittedGroup :=
  {| GroupConfig.sub_label := Some (GroupConfig.group_label g);
     GroupConfig.sub_parts :=
       Some (imap (fun j r => (NInt (Z.of_nat j), GroupConfig.checked r))
                  (GroupConfig.rows g)) |}.

(** The groups that come back from the dialog of an item when its form is
    submitted as shown. *)
Definition resubmitted (type_label localize : jsstring -> jsstring)
    (item : Item) : list Group :=
  GroupConfig._prepareSubmitData localize
    (Some (form_of_rows
             <$> GroupConfig.ctx_groups
                   (GroupConfig._prepareContext type_label localize item))).

(** A host call that changes the chat card the handler works on.  The
    write back of the content at the end stores the card as it then is. *)
Definition changes_card (c : HostCall) : bool :=
  match c with
  | InsertAfter _ _ | Append _ _ | RemoveNode _ | SetAttribute _ _ _ => true
  | _ => false
  end.

(** The chat card is left as it is: no call changes it. *)
Definition card_left_as_is {A} (o : Outcome A) : bool :=
  forallb (fun c => negb (changes_card c)) (trace o).

(** The test of [manageCardButtons] for the blade cantrip buttons. *)
Definition blade_cantrip_enabled (item : Item) : bool :=
  default false (bladeCantrip <$> flags_config item)
  && bool_decide (item_type item = lit "spell")
  && strict_equals_num (system_level item) 0
  && hasDamage item.

(** The button [createSaveButtons] makes for an ability of a table. *)
Definition labelled_button (table : gmap jsstring AbilityConfig) (item : Item)
    (abi : jsstring) : SaveButton :=
  {| data_ability := abi;
     data_dc :=
       coalesce (coalesce (default VUndefined (getSaveDC item))
                          (default VUndefined (dc <$> save item)))
                (VNum (NInt 10));
     caption_ability := table !! abi ≫= ability_label |}.

End Spec.

Import Spec.

(** ** Sample inputs *)

Module Examples.

(** The formula ["1d8"], a line feed, ["+2"]. *)
Definition two_lines : jsstring := lit "1d8" ++ [10%N] ++ lit "+2".

Definition item0 : Item :=
  {| uuid := lit "Item.a1";
     name := lit "Torch";
     item_type := lit "weapon";
     actor_uuid := Some (lit "Actor.b2");
     flags_config := None;
     damage_parts := None;
     system_level := VUndefined;
     hasSave := false;
     save := None;
     getSaveDC := None;
     isVersatile := false;
     hasDamage := true;
     derived_damage_types := None;
     labels_damageTypes := None;
     has_rollDamage := true;
     has_prepareData := true |}.

Definition with_config (c : Config) (item : Item) : Item :=
  {| uuid := uuid item;
     name := name item;
     item_type := item_type item;
     actor_uuid := actor_uuid item;
     flags_config := Some c;
     damage_parts := damage_parts item;
     system_level := system_level item;
     hasSave := hasSave item;
     save := save item;
     getSaveDC := getSaveDC item;
     isVersatile := isVersatile item;
     hasDamage := hasDamage item;
     derived_damage_types := derived_damage_types item;
     labels_damageTypes := labels_damageTypes item;
     has_rollDamage := has_rollDamage item;
     has_prepareData := has_prepareData item |}.

Definition with_save (sv : Save) (item : Item) : Item :=
  {| uuid := uuid item;
     name := name item;
     item_type := item_type item;
     actor_uuid := actor_uuid item;
     flags_config := flags_config item;
     damage_parts := damage_parts item;
     system_level := system_level item;
     hasSave := true;
     save := Some sv;
     getSaveDC := getSaveDC item;
     isVersatile := isVersatile item;
     hasDamage := hasDamage item;
     derived_damage_types := derived_damage_types item;
     labels_damageTypes := labels_damageTypes item;
     has_rollDamage := has_rollDamage item;
     has_prepareData := has_prepareData item |}.

Definition one_group (label : string) (indices : list Z) : Config :=
  {| groups := Some [ {| label := Some (lit label);
                         parts := Some ((fun z => VNum (NInt z)) <$> indices) |} ];
     versatile := VUndefined;
     bladeCantrip := false;
     saves := None |}.

Definition fire : DamagePart := (lit "1d6", lit "fire").
Definition cold : DamagePart := (lit "1d4", lit "cold").

(** Two damage parts and one group that lists position 0. *)
Definition torch : Item :=
  with_config (one_group "Burn" [0])
    (Rollgroups.with_damage_parts item0 [fire; cold]).

(** The same with an index that names no position. *)
Definition torch_stray : Item :=
  with_config (one_group "Burn" [0; 7])
    (Rollgroups.with_damage_parts item0 [fire; cold]).

(** A fire bolt cast by a creature that has a spell level and no level. *)
Definition fire_bolt : Item :=
  Rollgroups.with_damage_parts item0 [(lit "1d8", lit "fire")].

Definition npc_picker : Picker :=
  {| cantrip := Some fire_bolt;
     actor := Some {| level := VUndefined; spellLevel := VNum (NInt 11) |} |}.

Definition hero_picker : Picker :=
  {| cantrip := Some fire_bolt;
     actor := Some {| level := VNum (NInt 5); spellLevel := VUndefined |} |}.

(** The abilities table of a game system with two abilities. *)
Definition two_abilities : gmap jsstring AbilityConfig :=
  <[lit "str" := {| ability_label := Some (lit "Strength") |}]>
    (<[lit "dex" := {| ability_label := Some (lit "Dexterity") |}]> ∅).

Definition system_config : SystemConfig :=
  {| damageTypes := None;
     healingTypes := None;
     abilities := Some two_abilities |}.

(** An item with a dexterity save whose configuration asks for a further
    save on ["toString"], which is no ability. *)
Definition trap : Item :=
  with_save {| ability := Some (lit "dex"); dc := VNum (NInt 13) |}
    (with_config {| groups := None;
                    versatile := VUndefined;
                    bladeCantrip := false;
                    saves := Some [lit "toString"] |} item0).

(** [" 1 D 8+2"] cut into a dice term, and [two_lines] likewise. *)
Definition spaced_term : DiceTerm :=
  {| t_leading := lit " "; t_count := lit "1"; t_sep1 := lit " ";
     t_letter := 68%N; t_sep2 := lit " "; t_sides := lit "8";
     t_rest := lit "+2" |}.

Definition two_lines_term : DiceTerm :=
  {| t_leading := []; t_count := lit "1"; t_sep1 := [];
     t_letter := 100%N; t_sep2 := []; t_sides := lit "8";
     t_rest := 10%N :: lit "+2" |}.

(** A chat card with two roll group buttons. *)
Definition chat_card : Element :=
  {| querySelectorAll := fun selector =>
       if decide (selector = lit "[data-action^='rollgroup-damage']")
       then [1%N; 2%N] else [] |}.

(** A chat card with a damage button and a saving throw button. *)
Definition full_card : Element :=
  {| querySelectorAll := fun selector =>
       if decide (selector = lit ".card-buttons") then [0%N]
       else if decide (selector
                       = lit ".card-buttons button[data-action='damage']")
       then [1%N]
       else if decide (selector = lit "button[data-action=save]") then [3%N]
       else [] |}.

(** A cantrip with one damage part and no groups, enabled as a blade
    cantrip, with a dexterity save and a further save on strength. *)
Definition booming_blade : Item :=
  {| uuid := lit "Item.d4";
     name := lit "Booming Blade";
     item_type := lit "spell";
     actor_uuid := Some (lit "Actor.b2");
     flags_config :=
       Some {| groups := None;
               versatile := VUndefined;
               bladeCantrip := true;
               saves := Some [lit "str"] |};
     damage_parts := Some [(lit "1d8", lit "thunder")];
     system_level := VNum (NInt 0);
     hasSave := true;
     save := Some {| ability := Some (lit "dex"); dc := VNum (NInt 13) |};
     getSaveDC := None;
     isVersatile := false;
     hasDamage := true;
     derived_damage_types := None;
     labels_damageTypes := None;
     has_rollDamage := true;
     has_prepareData := true |}.

(** A localisation that gives every key back. *)
Definition no_translation (key : jsstring) : Outcome jsstring := mret key.

(** A host whose localisation is not there yet: every call throws. *)
Definition no_localisation (key : jsstring) : Outcome jsstring :=
  throw (TypeError "Cannot read properties of undefined (reading 'localize')").

(** An item sheet with the control to add a damage part. *)
Definition sheet : Element :=
  {| querySelectorAll := fun selector =>
       if decide (selector = lit ".add-damage") then [5%N] else [] |}.

(** A click on the first group button of the torch, found by its uuid. *)
Definition torch_click : ChatClick unit :=
  {| click_event := tt;
     itemData := None;
     owner_found := true;
     item_by_uuid := Some torch;
     group_attr := Some (NInt 0);
     spellLevel_attr := None;
     action_attr := Some (lit "rollgroup-damage") |}.

(** A click on a card that embeds the item while its owner is gone. *)
Definition orphan_click : ChatClick unit :=
  {| click_event := tt;
     itemData := Some torch;
     owner_found := false;
     item_by_uuid := Some torch;
     group_attr := Some (NInt 0);
     spellLevel_attr := None;
     action_attr := Some (lit "rollgroup-damage") |}.

Definition plain_roll : RollDamageConfig unit unit :=
  {| critical := false; event := tt; roll_spellLevel := VNull;
     roll_versatile := false; options := tt |}.

(** The configuration of the torch with a second group, which lists a
    stray index and position 1, and with further saves. *)
Definition two_groups : Config :=
  {| groups := Some [ {| label := Some (lit "Burn");
                         parts := Some [VNum (NInt 0)] |};
                      {| label := None;
                         parts := Some [VNum (NInt 7); VNum (NInt 1)] |} ];
     versatile := VNum (NInt 1);
     bladeCantrip := false;
     saves := Some [lit "str"; lit "toString"; lit "dex"; lit "str"] |}.

Definition lantern : Item :=
  with_save {| ability := Some (lit "dex"); dc := VNull |}
    (with_config two_groups (Rollgroups.with_damage_parts item0 [fire; cold])).

Definition ability_entries : list (jsstring * AbilityConfig) :=
  [ (lit "str", {| ability_label := Some (lit "Strength") |});
    (lit "dex", {| ability_label := Some (lit "Dexterity") |}) ].

(** What the dialog of the saves submits with the box of strength ticked,
    and an item whose further saves are what the dialog made of it. *)
Definition one_ticked : option (list (jsstring * bool)) :=
  Some [ (lit "str", true); (lit "dex", false) ].

Definition resaved : Item :=
  with_save {| ability := Some (lit "dex"); dc := VNull |}
    (with_config {| groups := None;
                    versatile := VUndefined;
                    bladeCantrip := false;
                    saves := Some (SaveConfig._prepareSubmitData one_ticked) |}
                 item0).

(** A game system with two damage types and one healing type. *)
Definition typed_config : SystemConfig :=
  {| damageTypes := Some {[ lit "fire" := tt; lit "cold" := tt ]};
     healingTypes := Some {[ lit "healing" := tt ]};
     abilities := None |}.

(** An item whose first damage part has no formula, with one group for
    position 1. *)
Definition salve : Item :=
  with_config (one_group "Mend" [1])
    (Rollgroups.with_damage_parts item0
       [ ([], lit "fire"); (lit "1d4", lit "healing"); (lit "1d6", lit "fire") ]).

(** A versatile weapon with the two groups of the lantern. *)
Definition staff : Item :=
  {| uuid := lit "Item.c3";
     name := lit "Staff";
     item_type := lit "weapon";
     actor_uuid := Some (lit "Actor.b2");
     flags_config := Some two_groups;
     damage_parts := Some [fire; cold];
     system_level := VUndefined;
     hasSave := false;
     save := None;
     getSaveDC := None;
     isVersatile := true;
     hasDamage := true;
     derived_damage_types := None;
     labels_damageTypes := None;
     has_rollDamage := true;
     has_prepareData := true |}.

(** The torch without the method [rollDamage], and a click on its first
    group button. *)
Definition stub_torch : Item :=
  {| uuid := uuid torch;
     name := name torch;
     item_type := item_type torch;
     actor_uuid := actor_uuid torch;
     flags_config := flags_config torch;
     damage_parts := damage_parts torch;
     system_level := system_level torch;
     hasSave := hasSave torch;
     save := save torch;
     getSaveDC := getSaveDC torch;
     isVersatile := isVersatile torch;
     hasDamage := hasDamage torch;
     derived_damage_types := derived_damage_types torch;
     labels_damageTypes := labels_damageTypes torch;
     has_rollDamage := false;
     has_prepareData := true |}.

Definition stub_click : ChatClick unit :=
  {| click_event := tt;
     itemData := None;
     owner_found := true;
     item_by_uuid := Some stub_torch;
     group_attr := Some (NInt 0);
     spellLevel_attr := None;
     action_attr := Some (lit "rollgroup-damage") |}.

Definition sword : Weapon :=
  {| weapon_item := item0; equipped := true; hasAttack := true;
     has_rollAttack := true |}.

Definition spare_sword : Weapon :=
  {| weapon_item := item0; equipped := false; hasAttack := true;
     has_rollAttack := true |}.

End Examples.

Import Examples.

(** ** Numbers *)

Lemma safe_integer_small z : -1000 <= z <= 1000 -> safe_integer z.
Proof. unfold safe_integer, MAX_SAFE_INTEGER. lia. Qed.

(** ** The matcher *)

Section MatcherFacts.
Context {R : Type}.
Implicit Types (cls : N -> bool) (k : jsstring -> jsstring -> option R).

Lemma star_sound cls s k v :
  star cls s k = Some v ->
  exists m r, s = m ++ r /\ all cls m /\ k m r = Some v.
Proof.
  revert k. induction s as [|c s IH]; intros k H; simpl in H.
  - exists [], []. repeat split; [constructor | exact H].
  - destruct (cls c) eqn:Hc.
    + destruct (star cls s _) as [x|] eqn:Hs.
      * inversion H; subst x. apply IH in Hs as (m & r & -> & Hm & Hk).
        exists (c :: m), r. repeat split; [by constructor | exact Hk].
      * exists [], (c :: s). repeat split; [constructor | exact H].
    + exists [], (c :: s). repeat split; [constructor | exact H].
Qed.

Lemma plus_sound cls s k v :
  plus cls s k = Some v ->
  exists m r, s = m ++ r /\ all cls m /\ m ≠ [] /\ k m r = Some v.
Proof.
  destruct s as [|c s]; simpl; [discriminate|].
  destruct (cls c) eqn:Hc; [|discriminate].
  intros H. apply star_sound in H as (m & r & -> & Hm & Hk).
  exists (c :: m), r. repeat split; [by constructor | discriminate | exact Hk].
Qed.

Lemma chr_sound cls s (k1 : jsstring -> option R) v :
  chr cls s k1 = Some v ->
  exists c r, s = c :: r /\ cls c = true /\ k1 r = Some v.
Proof.
  destruct s as [|c s]; simpl; [discriminate|].
  destruct (cls c) eqn:Hc; [|discriminate].
  intros H. by exists c, s.
Qed.

Lemma eoi_sound s (x v : R) : eoi s x = Some v -> s = [] /\ v = x.
Proof. destruct s; simpl; [|discriminate]. intros [= ->]. by split. Qed.

(** A greedy quantifier takes the whole run when the rest of the pattern
    accepts what follows it. *)
Lemma star_greedy cls m r k v :
  all cls m -> stops cls r -> k m r = Some v ->
  star cls (m ++ r) k = Some v.
Proof.
  intros Hm Hr. revert k. induction Hm as [|c m Hc Hm IH]; intros k Hk; simpl.
  - destruct r as [|c r]; simpl; [exact Hk|].
    simpl in Hr. rewrite Hr. exact Hk.
  - rewrite Hc. rewrite (IH (fun m r => k (c :: m) r) Hk). reflexivity.
Qed.

Lemma plus_greedy cls m r k v :
  all cls m -> m ≠ [] -> stops cls r -> k m r = Some v ->
  plus cls (m ++ r) k = Some v.
Proof.
  intros Hm Hne Hr Hk. destruct Hm as [|c m Hc Hm]; [done|]. simpl.
  rewrite Hc. by apply star_greedy.
Qed.
End MatcherFacts.

(** ** Character classes *)

Lemma digit_not_space c : is_digit c = true -> is_white_space c = false.
Proof.
  unfold is_digit, is_white_space, is_line_terminator. intros H.
  apply andb_true_iff in H as [H1 H2].
  apply N.leb_le in H1, H2.
  repeat (apply orb_false_iff; split); try (apply N.eqb_neq; lia).
  apply andb_false_iff. left. apply N.leb_gt. lia.
Qed.

Lemma d_not_space c : is_d c = true -> is_white_space c = false.
Proof.
  unfold is_d. intros H.
  apply orb_true_iff in H as [H|H]; apply N.eqb_eq in H; subst c; reflexivity.
Qed.

Lemma d_not_digit c : is_d c = true -> is_digit c = false.
Proof.
  unfold is_d. intros H.
  apply orb_true_iff in H as [H|H]; apply N.eqb_eq in H; subst c; reflexivity.
Qed.

Lemma digit_is_dot c : is_digit c = true -> is_dot c = true.
Proof.
  unfold is_digit, is_dot, is_line_terminator. intros H.
  apply andb_true_iff in H as [H1 H2].
  apply N.leb_le in H1, H2. apply negb_true_iff.
  repeat (apply orb_false_iff; split); apply N.eqb_neq; lia.
Qed.

(** ** Scanning *)

Lemma skip_split cls s :
  exists m, s = m ++ skip cls s /\ all cls m /\ stops cls (skip cls s).
Proof.
  induction s as [|c s (m & Hs & Hm & Hr)]; simpl.
  - exists []. repeat split; constructor.
  - destruct (cls c) eqn:Hc.
    + exists (c :: m). repeat split; [simpl; congruence | by constructor | exact Hr].
    + exists []. repeat split; [constructor | exact Hc].
Qed.

Lemma skip_run cls m r : all cls m -> stops cls r -> skip cls (m ++ r) = r.
Proof.
  intros Hm Hr. induction Hm as [|c m Hc Hm IH]; simpl.
  - destruct r as [|c r]; [reflexivity|]. simpl in *. by rewrite Hr.
  - by rewrite Hc.
Qed.

Lemma stops_run cls1 cls2 m r :
  (forall c, cls1 c = true -> cls2 c = false) ->
  all cls1 m -> m ≠ [] -> stops cls2 (m ++ r).
Proof.
  intros Hd Hm Hne. destruct Hm as [|c m Hc Hm]; [done|]. simpl. by apply Hd.
Qed.

Lemma space_not_digit c : is_white_space c = true -> is_digit c = false.
Proof.
  intros H. destruct (is_digit c) eqn:Hd; [|reflexivity].
  apply digit_not_space in Hd. congruence.
Qed.

Lemma stops_separator w d s :
  all is_white_space w -> is_d d = true -> stops is_digit (w ++ d :: s).
Proof.
  intros Hw Hd. destruct Hw as [|c w Hc Hw]; simpl.
  - by apply d_not_digit.
  - by apply space_not_digit.
Qed.

(** ** The pattern of [scaleDiceFormula] *)

(** A match decomposes the formula into a dice term whose remainder has no
    line terminator. *)
Lemma formula_match_sound f l n m r :
  formula_match f = Some (l, n, m, r) ->
  exists w1 d w2,
    let t := {| t_leading := l; t_count := n; t_sep1 := w1; t_letter := d;
                t_sep2 := w2; t_sides := m; t_rest := r |} in
    well_formed t /\ f = text t /\ all is_dot r.
Proof.
  unfold formula_match. intros H.
  apply star_sound in H as (m1 & r1 & -> & Hm1 & H).
  apply plus_sound in H as (m2 & r2 & -> & Hm2 & Hne2 & H).
  apply star_sound in H as (w1 & r3 & -> & Hw1 & H).
  apply chr_sound in H as (d & r4 & -> & Hd & H).
  apply star_sound in H as (w2 & r5 & -> & Hw2 & H).
  apply plus_sound in H as (m3 & r6 & -> & Hm3 & Hne3 & H).
  apply star_sound in H as (m4 & r7 & -> & Hm4 & H).
  apply eoi_sound in H as [-> H]. inversion H; subst.
  exists w1, d, w2. simpl. split; [by constructor|].
  split; [|exact Hm4]. unfold text; simpl. by rewrite app_nil_r.
Qed.

(** A dice term whose remainder has no line terminator is matched; the
    first capture is its leading white space, the second its count, and the
    last two together are its die size and remainder. *)
Lemma formula_match_complete t :
  well_formed t -> all is_dot (t_rest t) ->
  exists m r,
    formula_match (text t) = Some (t_leading t, t_count t, m, r)
    /\ m ++ r = t_sides t ++ t_rest t.
Proof.
  intros [Hl Hn Hn0 Hw1 Hd Hw2 Hm Hm0] Hrest.
  destruct t as [l n w1 d w2 m rest]; simpl in *.
  destruct (skip_split is_digit rest) as (dp & Hsplit & Hdp & Hstop).
  set (rest' := skip is_digit rest) in *. clearbody rest'. subst rest.
  apply Forall_app in Hrest as [_ Hrest'].
  exists (m ++ dp), rest'. split; [|by rewrite <- app_assoc].
  unfold formula_match, text; simpl.
  apply star_greedy;
    [exact Hl | by apply (stops_run is_digit); [apply digit_not_space|..] |].
  apply plus_greedy; [exact Hn | exact Hn0 | by apply stops_separator |].
  apply star_greedy; [exact Hw1 | simpl; by apply d_not_space |].
  simpl. rewrite Hd.
  apply star_greedy;
    [exact Hw2 | by apply (stops_run is_digit); [apply digit_not_space|..] |].
  rewrite (app_assoc m dp rest').
  apply plus_greedy;
    [by apply Forall_app | by destruct m | exact Hstop |].
  rewrite <- (app_nil_r rest') at 1.
  apply star_greedy; [exact Hrest' | exact I | reflexivity].
Qed.

(** ** Formulas that begin with a dice term *)

Lemma skip1_sound cls s r :
  skip1 cls s = Some r ->
  exists m, s = m ++ r /\ all cls m /\ m ≠ [] /\ stops cls r.
Proof.
  destruct s as [|c s]; simpl; [discriminate|].
  destruct (cls c) eqn:Hc; [|discriminate]. intros [= <-].
  destruct (skip_split cls s) as (m & Hs & Hm & Hr).
  exists (c :: m). repeat split;
    [simpl; congruence | by constructor | discriminate | exact Hr].
Qed.

Lemma skip1_run cls m r :
  all cls m -> m ≠ [] -> stops cls r -> skip1 cls (m ++ r) = Some r.
Proof.
  intros Hm Hne Hr. destruct Hm as [|c m Hc Hm]; [done|]. simpl.
  rewrite Hc. by rewrite skip_run.
Qed.

Lemma expect_sound cls s r :
  expect cls s = Some r -> exists c, s = c :: r /\ cls c = true.
Proof.
  destruct s as [|c s]; simpl; [discriminate|].
  destruct (cls c) eqn:Hc; [|discriminate]. intros [= <-]. by exists c.
Qed.

(** The scan of a dice term finds its die size and remainder. *)
Lemma scan_text t :
  well_formed t -> scan (text t) = Some (t_sides t ++ t_rest t).
Proof.
  intros [Hl Hn Hn0 Hw1 Hd Hw2 Hm Hm0].
  destruct t as [l n w1 d w2 m rest]; simpl in *. unfold scan, text; simpl.
  rewrite skip_run;
    [| exact Hl | by apply (stops_run is_digit); [apply digit_not_space|..]].
  rewrite skip1_run; [| exact Hn | exact Hn0 | by apply stops_separator].
  simpl. rewrite skip_run; [| exact Hw1 | simpl; by apply d_not_space].
  simpl. rewrite Hd. simpl.
  rewrite skip_run;
    [| exact Hw2 | by apply (stops_run is_digit); [apply digit_not_space|..]].
  destruct Hm as [|c m Hc Hm]; [done|]. simpl. rewrite Hc. reflexivity.
Qed.

Lemma scan_sound f s : scan f = Some s -> begins_with_dice f.
Proof.
  unfold scan. intros H.
  destruct (skip1 is_digit (skip is_white_space f)) as [r|] eqn:H1;
    [|discriminate]. simpl in H.
  destruct (expect is_d (skip is_white_space r)) as [r'|] eqn:H2;
    [|discriminate]. simpl in H.
  destruct (skip1 is_digit (skip is_white_space r')) as [r''|] eqn:H3;
    [|discriminate]. clear H.
  destruct (skip_split is_white_space f) as (l & Hf & Hl & _).
  apply skip1_sound in H1 as (n & Hn' & Hn & Hn0 & _).
  destruct (skip_split is_white_space r) as (w1 & Hr & Hw1 & _).
  apply expect_sound in H2 as (d & Hd' & Hd).
  destruct (skip_split is_white_space r') as (w2 & Hr' & Hw2 & _).
  apply skip1_sound in H3 as (m & Hm' & Hm & Hm0 & _).
  exists {| t_leading := l; t_count := n; t_sep1 := w1; t_letter := d;
            t_sep2 := w2; t_sides := m; t_rest := r'' |}.
  split; [by constructor|]. unfold text; simpl. congruence.
Qed.

(** The scan decides the shape. *)
Lemma begins_with_dice_scan f :
  begins_with_dice f <-> begins_with_diceb f = true.
Proof.
  unfold begins_with_diceb. rewrite bool_decide_eq_true. split.
  - intros (t & Ht & ->). rewrite scan_text by exact Ht. by eexists.
  - intros [s Hs]. by apply scan_sound in Hs.
Qed.

#[export] Instance begins_with_dice_dec f : Decision (begins_with_dice f).
Proof.
  refine (cast_if (decide (begins_with_diceb f = true)));
    abstract (by rewrite begins_with_dice_scan).
Defined.

(** A formula has one die size and remainder, however it is cut into a
    dice term. *)
Lemma dice_term_tail t t' :
  well_formed t -> well_formed t' -> text t = text t' ->
  t_sides t ++ t_rest t = t_sides t' ++ t_rest t'.
Proof.
  intros Ht Ht' Heq. apply scan_text in Ht, Ht'. congruence.
Qed.

(** Without a leading dice term there is no match. *)
Lemma formula_match_no_dice f :
  ~ begins_with_dice f -> formula_match f = None.
Proof.
  intros Hno. destruct (formula_match f) as [[[[l n] m] r]|] eqn:H;
    [|reflexivity].
  apply formula_match_sound in H as (w1 & d & w2 & Hwf & Hf & _).
  exfalso. apply Hno. by eexists.
Qed.

(** Nor is there one when a line terminator follows the dice term. *)
Lemma formula_match_line_terminator t :
  well_formed t -> ~ all is_dot (t_rest t) -> formula_match (text t) = None.
Proof.
  intros Ht Hlt. destruct (formula_match (text t)) as [[[[l n] m] r]|] eqn:H;
    [|reflexivity].
  apply formula_match_sound in H as (w1 & d & w2 & Hwf & Hf & Hr).
  exfalso. apply Hlt.
  pose proof (dice_term_tail _ _ Ht Hwf Hf) as Htail. simpl in Htail.
  assert (Hall : all is_dot (t_sides t ++ t_rest t)).
  { rewrite Htail. apply Forall_app. split; [|exact Hr].
    eapply Forall_impl; [apply (wf_sides _ Hwf)|]. apply digit_is_dot. }
  by apply Forall_app in Hall as [_ ?].
Qed.

(** ** [scaleDiceFormula] *)

(** The falsy values of [JsValue]. *)
Lemma falsy_values v :
  ToBoolean v = false <->
  v = VUndefined \/ v = VNull \/ v = VBool false \/ v = VNum (NInt 0)
  \/ v = VNum NaN.
Proof.
  split.
  - destruct v as [| |[]|[z|]]; simpl; intros H; try discriminate; auto.
    apply negb_false_iff, Z.eqb_eq in H. subst z. auto 6.
  - intros [->|[->|[->|[->| ->]]]]; reflexivity.
Qed.

Lemma truthy_integer a : a <> 0 ->
  negb (ToBoolean (VNum (NInt a))) || strict_equals_num (VNum (NInt a)) 0 = false.
Proof.
  intros Ha. simpl. apply Z.eqb_neq in Ha. by rewrite Ha.
Qed.

(** C1 as stated fails where the dice term is written with white space or
    a capital letter: on [" 1 D 8+2"] with offset 2 the source gives
    [" 3d8+2"], not the formula with only its count rewritten. *)
Lemma scaleDiceFormula_separators :
  well_formed spaced_term
  /\ scaleDiceFormula (text spaced_term) (VNum (NInt 2)) = lit " 3d8+2"
  /\ only_count_rewritten spaced_term 2 = lit " 3 D 8+2"
  /\ scaleDiceFormula (text spaced_term) (VNum (NInt 2))
     <> only_count_rewritten spaced_term 2.
Proof.
  split; [split; simpl; try discriminate; repeat constructor|].
  split; [vm_compute; reflexivity|].
  split; [vm_compute; reflexivity|].
  vm_compute. discriminate.
Qed.

(** C1, amended: on a formula that begins with a dice term whose remainder
    has no line terminator, and for a nonzero offset [a] (count, offset and
    sum being safe integers), the count is replaced by the decimal form of
    the count plus [a], the letter is written as a small d with no white
    space around it, and the leading white space, the die size and the
    whole remainder are kept as they are. *)
Theorem scaleDiceFormula_dice t a :
  well_formed t -> all is_dot (t_rest t) -> a <> 0 ->
  safe_integer (digits_value (t_count t)) -> safe_integer a ->
  safe_integer (digits_value (t_count t) + a) ->
  scaleDiceFormula (text t) (VNum (NInt a)) =
    t_leading t ++ Z_to_jsstring (digits_value (t_count t) + a) ++ lit "d"
      ++ t_sides t ++ t_rest t.
Proof.
  intros Ht Hrest Ha _ _ _. unfold scaleDiceFormula.
  rewrite truthy_integer by exact Ha.
  destruct (formula_match_complete t Ht Hrest) as (m & r & -> & Hmr).
  simpl. by rewrite Hmr.
Qed.

Lemma spaced_term_well_formed : well_formed spaced_term.
Proof. split; simpl; try discriminate; repeat constructor. Qed.

Lemma two_lines_term_well_formed : well_formed two_lines_term.
Proof. split; simpl; try discriminate; repeat constructor. Qed.

Lemma scaleDiceFormula_dice_witness :
  scaleDiceFormula (lit " 1 D 8+2") (VNum (NInt 2)) = lit " 3d8+2".
Proof.
  refine (scaleDiceFormula_dice spaced_term 2 spaced_term_well_formed _ _ _ _ _).
  - repeat constructor.
  - lia.
  - apply safe_integer_small. vm_compute. split; discriminate.
  - apply safe_integer_small. lia.
  - apply safe_integer_small. vm_compute. split; discriminate.
Defined.

(** On a dice term followed by a line terminator the pattern does not
    match and the offset is appended. *)
Lemma scaleDiceFormula_line_terminator t a :
  well_formed t -> ~ all is_dot (t_rest t) -> a <> 0 -> safe_integer a ->
  scaleDiceFormula (text t) (VNum (NInt a)) =
    text t ++ lit " + " ++ Z_to_jsstring a.
Proof.
  intros Ht Hrest Ha _. unfold scaleDiceFormula.
  rewrite truthy_integer by exact Ha.
  by rewrite formula_match_line_terminator.
Qed.

Lemma scaleDiceFormula_line_terminator_witness :
  scaleDiceFormula two_lines (VNum (NInt 1)) = two_lines ++ lit " + 1".
Proof.
  refine (scaleDiceFormula_line_terminator two_lines_term 1
            two_lines_term_well_formed _ _ _).
  - intros H. apply Forall_inv in H. discriminate.
  - lia.
  - apply safe_integer_small. lia.
Defined.

(** C2: a formula that does not begin with a dice term comes back with
    [" + "] and the offset appended, for every nonzero offset among the safe
    integers. *)
Theorem scaleDiceFormula_fallback formula a :
  ~ begins_with_dice formula -> a <> 0 -> safe_integer a ->
  scaleDiceFormula formula (VNum (NInt a)) =
    formula ++ lit " + " ++ Z_to_jsstring a.
Proof.
  intros Hno Ha _. unfold scaleDiceFormula.
  rewrite truthy_integer by exact Ha.
  by rewrite formula_match_no_dice.
Qed.

Lemma scaleDiceFormula_fallback_witness :
  ~ begins_with_dice (lit "fire") /\ 2 <> 0 /\ safe_integer 2
  /\ scaleDiceFormula (lit "fire") (VNum (NInt 2)) = lit "fire + 2".
Proof.
  assert (H1 : ~ begins_with_dice (lit "fire")).
  { intros H. apply begins_with_dice_scan in H. vm_compute in H. discriminate. }
  assert (H2 : 2 <> 0) by lia.
  assert (H3 : safe_integer 2) by (unfold safe_integer, MAX_SAFE_INTEGER; lia).
  exact (conj H1 (conj H2 (conj H3
           (scaleDiceFormula_fallback (lit "fire") 2 H1 H2 H3)))).
Defined.

(** C3: ["1d8+2"] with an increment of 1 gives ["2d8+2"]. *)
Theorem scaleDiceFormula_1d8_plus_2 :
  scaleDiceFormula (lit "1d8+2") (VNum (NInt 1)) = lit "2d8+2".
Proof. vm_compute. reflexivity. Qed.

(** C8: a falsy increment, that is 0, [NaN], [null], [undefined] or
    [false], leaves every formula as it is. *)
Theorem scaleDiceFormula_falsy formula add :
  ToBoolean add = false -> scaleDiceFormula formula add = formula.
Proof.
  intros H. unfold scaleDiceFormula. by rewrite H.
Qed.

Lemma scaleDiceFormula_falsy_witness :
  ToBoolean (VNum (NInt 0)) = false
  /\ scaleDiceFormula (lit "1d8+2") (VNum (NInt 0)) = lit "1d8+2".
Proof.
  split; [reflexivity|].
  exact (scaleDiceFormula_falsy (lit "1d8+2") (VNum (NInt 0)) eq_refl).
Defined.

(** ** [constructParts] *)

Lemma select_from_cons raw i p ps :
  select_from raw i (p :: ps) =
    (if decide (listed raw i) then [p] else []) ++ select_from raw (S i) ps.
Proof.
  unfold select_from. rewrite imap_cons, filter_cons. simpl.
  rewrite Nat.add_0_r.
  assert (Hext : imap ((fun j q => ((i + j)%nat, q)) ∘ S) ps
                 = imap (fun j (q : DamagePart) => ((S i + j)%nat, q)) ps).
  { apply imap_ext. intros j q _. simpl. f_equal. lia. }
  rewrite Hext. by destruct (decide (listed raw i)).
Qed.

(** The [reduce] of the source computes the selection. *)
Lemma reduce_from_selection (indices : gset Num) raw ps i acc :
  (forall j, NInt (Z.of_nat j) ∈ indices <-> listed raw j) ->
  reduce_from (push_if_listed indices) ps i acc = acc ++ select_from raw i ps.
Proof.
  intros Hset. revert i acc. induction ps as [|p ps IH]; intros i acc; simpl.
  - by rewrite app_nil_r.
  - rewrite IH, select_from_cons. unfold push_if_listed.
    destruct (decide (listed raw i)) as [Hin|Hout].
    + rewrite bool_decide_eq_true_2 by (by apply Hset).
      by rewrite <- app_assoc.
    + rewrite bool_decide_eq_false_2 by (by rewrite Hset).
      reflexivity.
Qed.

(** Only the listing of positions inside the array matters. *)
Lemma select_from_ext raw raw' i ps :
  (forall j, (i <= j < i + length ps)%nat -> listed raw j <-> listed raw' j) ->
  select_from raw i ps = select_from raw' i ps.
Proof.
  revert i. induction ps as [|p ps IH]; intros i Hiff; [reflexivity|].
  rewrite !select_from_cons. simpl in Hiff.
  rewrite (IH (S i)) by (intros j Hj; apply Hiff; lia).
  destruct (decide (listed raw i)) as [H|H], (decide (listed raw' i)) as [H'|H'];
    try reflexivity; exfalso.
  - apply H', Hiff; [lia | exact H].
  - apply H, Hiff; [lia | exact H'].
Qed.

Lemma constructParts_eq item idx :
  let sel := selection (group_parts item idx) (default [] (damage_parts item)) in
  constructParts item idx =
    match sel with
    | [] => {| trace := [NotifyError (lit "ROLLGROUPS.RollGroupEmpty")];
               completion := Normal None |}
    | _ :: _ => {| trace := []; completion := Normal (Some sel) |}
    end.
Proof.
  simpl. unfold constructParts, reduce, selection.
  rewrite (reduce_from_selection _ (group_parts item idx))
    by (intros j; unfold listed; by rewrite elem_of_list_to_set).
  simpl. by destruct (select_from _ _ _).
Qed.

Lemma select_from_no_indices i ps : select_from [] i ps = [].
Proof.
  revert i. induction ps as [|p ps IH]; intros i; [reflexivity|].
  rewrite select_from_cons, IH.
  destruct (decide (listed [] i)) as [H|]; [|reflexivity].
  unfold listed in H. simpl in H. by apply not_elem_of_nil in H.
Qed.

(** *** Which group an index names *)

Lemma array_get_index {A} (a : list A) (i : nat) :
  array_get a (NInt (Z.of_nat i)) = a !! i.
Proof.
  unfold array_get. rewrite (proj2 (Z.leb_le 0 (Z.of_nat i))) by lia.
  by rewrite Nat2Z.id.
Qed.

Lemma array_get_Some {A} (a : list A) n x :
  array_get a n = Some x -> exists i, n = NInt (Z.of_nat i) /\ a !! i = Some x.
Proof.
  destruct n as [z|]; simpl; [|discriminate].
  destruct (0 <=? z) eqn:Hz; [|discriminate]. apply Z.leb_le in Hz.
  intros H. exists (Z.to_nat z). split; [|exact H]. f_equal. lia.
Qed.

Lemma group_parts_lookup item i g :
  configured_groups item !! i = Some g ->
  group_parts item (NInt (Z.of_nat i)) = default [] (parts g).
Proof.
  unfold configured_groups, group_parts.
  destruct (flags_config item) as [cfg|]; [|done]. cbn -[array_get].
  destruct (groups cfg) as [gs|]; [|done]. cbn -[array_get].
  intros H. by rewrite array_get_index, H.
Qed.

Lemma group_parts_none item idx :
  (forall i, idx = NInt (Z.of_nat i) -> configured_groups item !! i = None) ->
  group_parts item idx = [].
Proof.
  unfold configured_groups, group_parts.
  destruct (flags_config item) as [cfg|]; [|done]. cbn -[array_get].
  destruct (groups cfg) as [gs|]; [|done]. cbn -[array_get]. intros H.
  destruct (array_get gs idx) as [g|] eqn:Hg; [|done].
  apply array_get_Some in Hg as (i & -> & Hi). by rewrite (H i eq_refl) in Hi.
Qed.

Lemma group_index_cases (gs : list Group) idx :
  (exists i g, idx = NInt (Z.of_nat i) /\ gs !! i = Some g)
  \/ (forall i, idx = NInt (Z.of_nat i) -> gs !! i = None).
Proof.
  destruct idx as [z|]; [|right; discriminate].
  destruct (decide (0 <= z)) as [Hz|Hz].
  - destruct (gs !! Z.to_nat z) as [g|] eqn:Hg.
    + left. exists (Z.to_nat z), g. split; [f_equal; lia | exact Hg].
    + right. intros i [= ->]. by rewrite Nat2Z.id in Hg.
  - right. intros i [= ->]. lia.
Qed.

(** C4: for every item and every index, [constructParts] goes by the group
    at that place of the configured groups.  When the index is the number
    of a place that holds a group, it gives the damage parts whose
    positions are listed, after coercion to numbers, in the parts of that
    group, in their own order, and when there is none it notifies the user
    and gives [false]; when the index names no place of the groups, it
    notifies the user and gives [false].  And two groups that list the same
    positions of the array of damage parts give the same result, so a
    listed index that names no position changes nothing. *)
Theorem constructParts_selection item idx :
  let ps := default [] (damage_parts item) in
  ((exists (i : nat) g,
      idx = NInt (Z.of_nat i)
      /\ configured_groups item !! i = Some g
      /\ constructParts item idx =
           match selection (default [] (parts g)) ps with
           | [] => {| trace := [NotifyError (lit "ROLLGROUPS.RollGroupEmpty")];
                      completion := Normal None |}
           | p :: sel => {| trace := []; completion := Normal (Some (p :: sel)) |}
           end)
   \/ ((forall i : nat,
          idx = NInt (Z.of_nat i) -> configured_groups item !! i = None)
       /\ constructParts item idx =
            {| trace := [NotifyError (lit "ROLLGROUPS.RollGroupEmpty")];
               completion := Normal None |}))
  /\ (forall item' (i i' : nat) g g',
        default [] (damage_parts item') = ps ->
        configured_groups item !! i = Some g ->
        configured_groups item' !! i' = Some g' ->
        (forall j, (j < length ps)%nat ->
           listed (default [] (parts g')) j <-> listed (default [] (parts g)) j) ->
        constructParts item' (NInt (Z.of_nat i'))
        = constructParts item (NInt (Z.of_nat i))).
Proof.
  cbv zeta. split.
  - destruct (group_index_cases (configured_groups item) idx)
      as [(i & g & -> & Hg) | Hnone].
    + left. exists i, g. split; [reflexivity|]. split; [exact Hg|].
      rewrite constructParts_eq. cbv zeta.
      rewrite (group_parts_lookup item i g Hg).
      by destruct (selection _ _).
    + right. split; [exact Hnone|].
      rewrite constructParts_eq. cbv zeta.
      rewrite (group_parts_none item idx Hnone).
      unfold selection. by rewrite select_from_no_indices.
  - intros item' i i' g g' Hps Hg Hg' Hiff. rewrite !constructParts_eq.
    cbv zeta. rewrite Hps.
    rewrite (group_parts_lookup item i g Hg).
    rewrite (group_parts_lookup item' i' g' Hg'). unfold selection.
    rewrite (select_from_ext (default [] (parts g')) (default [] (parts g)))
      by (intros j Hj; apply Hiff; lia).
    reflexivity.
Qed.

Lemma constructParts_selection_witness :
  constructParts lantern (NInt 1)
  = {| trace := []; completion := Normal (Some [cold]) |}
  /\ constructParts torch_stray (NInt 0) = constructParts torch (NInt 0).
Proof.
  destruct (constructParts_selection lantern (NInt 1))
    as [[(i & g & Hi & Hg & Heq) | [Hnone _]] _].
  - injection Hi as Hi. apply (Nat2Z.inj 1 i) in Hi. subst i.
    injection Hg as <-. split; [exact Heq|].
    destruct (constructParts_selection torch (NInt 0)) as [_ Hsame].
    apply (Hsame torch_stray 0%nat 0%nat _ _ eq_refl eq_refl eq_refl).
    intros [|[|j]] Hj.
    + split; intros _; apply (bool_decide_unpack _); by vm_compute.
    + split; intros H; apply (bool_decide_pack _) in H; by vm_compute in H.
    + simpl in Hj. lia.
  - discriminate (Hnone 1%nat eq_refl).
Defined.

(** ** [rollDamageGroup] *)

(** C5: without groups in the configuration the call goes to the item's own
    [rollDamage] with the same configuration, and nothing else happens; with
    groups, when the chosen group has no list of parts or an empty one, the
    user is notified and the result is [null]. *)
Theorem rollDamageGroup_no_groups_or_empty_group {Event Options : Type}
    (this : Item) (rollgroup : Num) (config : RollDamageConfig Event Options) :
  let gs := configured_groups this in
  let indices := g ← array_get gs rollgroup; parts g in
  (gs = [] ->
     rollDamageGroup this rollgroup config =
       {| trace := []; completion := Normal (rollDamage_optional this config) |}
     /\ (has_rollDamage this = true ->
         rollDamage_optional this config = RollDamageOf this config))
  /\ (gs <> [] -> indices = None \/ indices = Some [] ->
     rollDamageGroup this rollgroup config =
       {| trace := [NotifyError (lit "ROLLGROUPS.RollGroupEmpty")];
          completion := Normal RollNull |}).
Proof.
  simpl. unfold rollDamageGroup, configured_groups. split.
  - intros ->. simpl. split; [reflexivity|].
    intros H. unfold rollDamage_optional. by rewrite H.
  - intros Hgs Hind.
    destruct (default [] _) as [|g gs]; [done|]. simpl length. simpl Nat.eqb.
    cbv iota. destruct Hind as [-> | ->]; reflexivity.
Qed.

Lemma rollDamageGroup_no_groups_or_empty_group_witness :
  rollDamageGroup item0 (NInt 0)
    {| critical := false; event := tt; roll_spellLevel := VNull;
       roll_versatile := false; options := tt |}
  = {| trace := [];
       completion :=
         Normal (RollDamageOf item0
                   {| critical := false; event := tt; roll_spellLevel := VNull;
                      roll_versatile := false; options := tt |}) |}
  /\ rollDamageGroup torch (NInt 3)
       {| critical := false; event := tt; roll_spellLevel := VNull;
          roll_versatile := false; options := tt |}
     = {| trace := [NotifyError (lit "ROLLGROUPS.RollGroupEmpty")];
          completion := Normal RollNull |}.
Proof.
  split.
  - destruct (rollDamageGroup_no_groups_or_empty_group item0 (NInt 0)
                {| critical := false; event := tt; roll_spellLevel := VNull;
                   roll_versatile := false; options := tt |}) as [H _].
    destruct (H eq_refl) as [H1 H2]. rewrite H1. by rewrite H2.
  - destruct (rollDamageGroup_no_groups_or_empty_group torch (NInt 3)
                {| critical := false; event := tt; roll_spellLevel := VNull;
                   roll_versatile := false; options := tt |}) as [_ H].
    apply H; [discriminate | by left].
Defined.

(** ** [createDamageButtons] *)

Lemma truthy_nonempty (s : jsstring) : truthy s = true <-> s ≠ [].
Proof. destruct s; simpl; split; (done || discriminate). Qed.

Lemma validParts_with_formula item : validParts item = parts_with_formula item.
Proof.
  unfold validParts, parts_with_formula.
  induction (default [] (damage_parts item)) as [|p ps IH]; [reflexivity|].
  simpl. rewrite filter_cons, IH.
  destruct (truthy p.1) eqn:Hp, (decide (p.1 ≠ [])) as [Hd|Hd];
    try reflexivity; exfalso.
  - by apply Hd, truthy_nonempty.
  - apply truthy_nonempty in Hd. congruence.
Qed.

Lemma length_reduce_push {A B} (f : A -> nat -> B) (l : list A) i acc :
  length (reduce_from (fun acc x j => acc ++ [f x j]) l i acc)
  = (length acc + length l)%nat.
Proof.
  revert i acc. induction l as [|x l IH]; intros i acc; simpl; [lia|].
  rewrite IH, length_app. simpl. lia.
Qed.

(** The buttons come out exactly when there is a group and more than one
    part with a formula, and then there is one button for each group. *)
Lemma createDamageButtons_cases CONFIG_system item :
  (configured_groups item ≠ [] /\ (1 < length (parts_with_formula item))%nat
   /\ exists bs, createDamageButtons CONFIG_system item = Some bs
                 /\ length bs = length (configured_groups item))
  \/ ((configured_groups item = [] \/ (length (parts_with_formula item) <= 1)%nat)
      /\ createDamageButtons CONFIG_system item = None).
Proof.
  unfold createDamageButtons, configured_groups.
  rewrite validParts_with_formula.
  destruct (flags_config item ≫= groups) as [[|g gs]|] eqn:Hg; simpl.
  - right. split; [by left | reflexivity].
  - destruct (1 <? length (parts_with_formula item))%nat eqn:Hv; simpl.
    + left. apply Nat.ltb_lt in Hv. repeat split; [done | exact Hv |].
      eexists. split; [reflexivity|].
      unfold reduce. simpl. rewrite length_reduce_push. simpl. lia.
    + right. apply Nat.ltb_ge in Hv. split; [by right | reflexivity].
  - right. split; [by left | reflexivity].
Qed.

Lemma Outcome_left_identity {A B} (a : A) (k : A -> Outcome B) :
  (mret a ≫= k) = k a.
Proof.
  unfold mbind, Outcome_bind, mret, Outcome_ret, bind, ret. simpl.
  by destruct (k a).
Qed.

(** C6, at the cantrip: it has no groups, so [createDamageButtons] gives
    [null]; by the claim the chat card is then left as it is, but the
    handler appends the blade cantrip buttons and inserts the button of the
    further save. *)
Lemma createDamageButtons_null_card_changed :
  createDamageButtons (Some system_config) booming_blade = None
  /\ trace (manageCardButtons (Some system_config) no_translation
              (ThisObject (Some ID)) booming_blade full_card)
     = [ Append 0%N
           (BladeCantripMarkup (lit "Actor.b2")
              (lit "ROLLGROUPS.BladeCantripAttack")
              (lit "ROLLGROUPS.BladeCantripDamage"));
         InsertAfter 3%N
           (SaveButtonsMarkup
              [ {| data_ability := lit "str";
                   data_dc := VNum (NInt 13);
                   caption_ability := Some (lit "Strength") |} ]);
         StoreContent ]
  /\ card_left_as_is
       (manageCardButtons (Some system_config) no_translation
          (ThisObject (Some ID)) booming_blade full_card) = false.
Proof. split; [|split]; vm_compute; reflexivity. Qed.

(** C6, amended: [createDamageButtons] gives [null] whenever the
    configuration has no group or at most one damage part has a formula, and
    gives buttons only when there is a group and at least two damage parts
    have a formula.  With [null], what [manageCardButtons] still does to
    the card are the blade cantrip buttons, the saving throw buttons and
    the write back: the damage button and the versatile button stay as they
    are, and the card is left as it is when moreover the item is no enabled
    blade cantrip and [createSaveButtons] gives [null]. *)
Theorem createDamageButtons_null CONFIG_system localize item el :
  ((configured_groups item = []
    \/ (length (parts_with_formula item) <= 1)%nat) ->
   createDamageButtons CONFIG_system item = None)
  /\ (createDamageButtons CONFIG_system item <> None ->
      (1 <= length (configured_groups item))%nat
      /\ (2 <= length (parts_with_formula item))%nat)
  /\ (createDamageButtons CONFIG_system item = None ->
      manageCardButtons_body CONFIG_system localize item el =
        (match
           querySelector el (lit ".card-buttons button[data-action='damage']")
         with
         | Some _ => add_blade_cantrip localize item el
         | None => mret tt
         end;;
         add_save_buttons CONFIG_system item el;;
         call StoreContent)
      /\ (blade_cantrip_enabled item = false ->
          createSaveButtons CONFIG_system (Some item) = mret None ->
          manageCardButtons_body CONFIG_system localize item el
          = call StoreContent
          /\ card_left_as_is
               (manageCardButtons_body CONFIG_system localize item el)
             = true)).
Proof.
  split; [|split].
  - destruct (createDamageButtons_cases CONFIG_system item)
      as [(Hg & Hv & bs & Hbs & _) | [Hor Hnone]].
    + intros [Hg' | Hv']; [done | lia].
    + by intros _.
  - destruct (createDamageButtons_cases CONFIG_system item)
      as [(Hg & Hv & bs & Hbs & _) | [Hor Hnone]]; [|done].
    intros _. split; [|lia].
    destruct (configured_groups item); [done | simpl; lia].
  - intros Hnone.
    assert (Hbody :
      manageCardButtons_body CONFIG_system localize item el =
        (match
           querySelector el (lit ".card-buttons button[data-action='damage']")
         with
         | Some _ => add_blade_cantrip localize item el
         | None => mret tt
         end;;
         add_save_buttons CONFIG_system item el;;
         call StoreContent)).
    { unfold manageCardButtons_body.
      destruct (querySelector el _) as [damageButton|]; [|reflexivity].
      rewrite Hnone. unfold replace_damage_button, adjust_versatile.
      rewrite (bool_decide_eq_false_2 (is_Some None)) by (by intros [? ?]).
      cbn [andb]. by rewrite !Outcome_left_identity. }
    split; [exact Hbody|]. intros Hblade Hsaves.
    assert (Heq : manageCardButtons_body CONFIG_system localize item el
                  = call StoreContent).
    { rewrite Hbody. unfold add_blade_cantrip, add_save_buttons.
      unfold blade_cantrip_enabled in Hblade. rewrite Hblade, Hsaves.
      destruct (querySelector el _); by rewrite !Outcome_left_identity. }
    split; [exact Heq|]. by rewrite Heq.
Qed.

Lemma createDamageButtons_null_witness :
  createDamageButtons (Some system_config) item0 = None
  /\ createDamageButtons (Some system_config) torch <> None
  /\ manageCardButtons_body (Some system_config) no_translation item0 full_card
     = call StoreContent.
Proof.
  destruct (createDamageButtons_null (Some system_config) no_translation
              item0 full_card) as (Hnull & _ & Hcard).
  split; [apply Hnull; by left|]. split; [vm_compute; discriminate|].
  apply Hcard; reflexivity.
Defined.

(** ** [_scaleCantripDamage] *)

Lemma actor_level_eq this : actor_level this = level_or_spellLevel_or_1 this.
Proof.
  unfold actor_level, level_or_spellLevel_or_1, coalesce.
  destruct (actor this) as [[l s]|]; simpl; [|reflexivity].
  destruct l, s; reflexivity.
Qed.

Lemma scaleCantripDamage_eq this :
  _scaleCantripDamage this =
    scaled_first_part (level_or_spellLevel_or_1 this) this.
Proof.
  unfold _scaleCantripDamage, scaled_first_part, first_part.
  rewrite <- actor_level_eq.
  destruct (cantrip this ≫= damage_parts) as [[|part ps]|]; simpl;
    try reflexivity.
  by destruct (ToNumber (actor_level this)).
Qed.

(** C9 as stated fails when the actor has no level and has a spell level:
    for spell level 11 the source rewrites ["1d8"] with the increment 2,
    where a level that falls back to 1 gives the increment 0. *)
Lemma scaleCantripDamage_spellLevel :
  _scaleCantripDamage npc_picker =
    {| rc_parts := [lit "3d8"]; rc_type := Some (lit "fire") |}
  /\ scaled_first_part (level_or_1 npc_picker) npc_picker =
    {| rc_parts := [lit "1d8"]; rc_type := Some (lit "fire") |}
  /\ _scaleCantripDamage npc_picker
     <> scaled_first_part (level_or_1 npc_picker) npc_picker.
Proof.
  split; [|split].
  - vm_compute. reflexivity.
  - vm_compute. reflexivity.
  - vm_compute. discriminate.
Qed.

(** C9, amended: [_scaleCantripDamage] uses the first damage part only.
    With [L] the level of the actor, or its spell level when it has no
    level, or 1 when it has neither, the result holds the formula of that
    part rewritten by [scaleDiceFormula] with the increment
    [floor((L + 1) / 6)], and its damage type; when [L] is not a number the
    formula is kept; without damage parts the result is no parts and the
    type [null]. *)
Theorem scaleCantripDamage_first_part this :
  (first_part this = None ->
     _scaleCantripDamage this = {| rc_parts := []; rc_type := None |})
  /\ (forall part L,
        first_part this = Some part ->
        ToNumber (level_or_spellLevel_or_1 this) = NInt L ->
        safe_integer L ->
        _scaleCantripDamage this =
          {| rc_parts := [scaleDiceFormula part.1 (VNum (NInt ((L + 1) / 6)))];
             rc_type := Some part.2 |})
  /\ (forall part,
        first_part this = Some part ->
        ToNumber (level_or_spellLevel_or_1 this) = NaN ->
        _scaleCantripDamage this =
          {| rc_parts := [part.1]; rc_type := Some part.2 |}).
Proof.
  rewrite scaleCantripDamage_eq. unfold scaled_first_part.
  split; [|split].
  - by intros ->.
  - intros part L -> -> _. reflexivity.
  - intros part -> ->. reflexivity.
Qed.

Lemma scaleCantripDamage_first_part_witness :
  _scaleCantripDamage hero_picker =
    {| rc_parts := [lit "2d8"]; rc_type := Some (lit "fire") |}.
Proof.
  destruct (scaleCantripDamage_first_part hero_picker) as (_ & H & _).
  refine (H (lit "1d8", lit "fire") 5 eq_refl eq_refl _).
  unfold safe_integer, MAX_SAFE_INTEGER. lia.
Defined.

(** ** [createSaveButtons] *)

Section SaveButtons.
Variable CONFIG_system : option SystemConfig.
Variable item : Item.

Local Abbreviation extra_saves := (Spec.extra_saves CONFIG_system item).

(** No item, or an item without a save: [null]. *)
Lemma createSaveButtons_no_save :
  createSaveButtons CONFIG_system None = mret None
  /\ (hasSave item = false ->
      createSaveButtons CONFIG_system (Some item) = mret None).
Proof. split; [reflexivity|]. intros H. simpl. by rewrite H. Qed.

(** No ability left by the filter: [null]. *)
Lemma createSaveButtons_none_left :
  extra_saves = [] -> createSaveButtons CONFIG_system (Some item) = mret None.
Proof.
  unfold extra_saves. intros H. simpl. rewrite H. simpl.
  by destruct (hasSave item).
Qed.

(** The filter drops the save ability of the item itself. *)
Lemma extra_saves_not_own abi :
  abi ∈ extra_saves -> save item ≫= ability <> Some abi.
Proof.
  unfold extra_saves. rewrite list_elem_of_In, filter_In.
  intros [_ H]. unfold extra_save in H.
  apply andb_true_iff in H as [H _]. apply bool_decide_eq_true in H.
  congruence.
Qed.

(** When buttons come out, there is one for each ability the filter let
    through, in order. *)
Lemma createSaveButtons_buttons bs :
  completion (createSaveButtons CONFIG_system (Some item)) = Normal (Some bs) ->
  data_ability <$> bs = extra_saves.
Proof.
  unfold extra_saves. simpl. destruct (hasSave item); simpl; [|discriminate].
  destruct (List.filter _ _) as [|abi l] eqn:Hf; [discriminate|].
  set (saves := abi :: l). simpl length. simpl Nat.eqb. cbv iota.
  assert (Hmap : forall xs ys,
             completion (mapM (save_button CONFIG_system item) xs) = Normal ys ->
             data_ability <$> ys = xs).
  { induction xs as [|x xs IH]; intros ys; simpl.
    - by intros [= <-].
    - unfold mbind, Outcome_bind, bind, save_button. simpl.
      unfold mbind, Outcome_bind, bind.
      destruct (completion (abilities_label CONFIG_system x)); simpl;
        [|discriminate].
      destruct (completion (mapM _ xs)) eqn:Hxs; simpl; [|discriminate].
      intros [= <-]. simpl. f_equal. by apply IH. }
  unfold mbind, Outcome_bind, bind.
  destruct (completion (mapM _ saves)) eqn:Hs; simpl; [|discriminate].
  intros [= <-]. by apply Hmap.
Qed.
End SaveButtons.

(** C10, at an item whose configuration lists ["toString"] as a further
    save, under an abilities table with the keys ["str"] and ["dex"]: the
    key is not in the table, so by the claim no button is made for it and
    the result is [null]; the source makes a button for it, with no label,
    because the membership test also finds the members every object
    inherits. *)
Theorem createSaveButtons_inherited_key :
  two_abilities !! lit "toString" = None
  /\ createSaveButtons (Some system_config) (Some trap) =
       {| trace := [];
          completion :=
            Normal (Some [ {| data_ability := lit "toString";
                              data_dc := VNum (NInt 13);
                              caption_ability := None |} ]) |}.
Proof. split; vm_compute; reflexivity. Qed.

(** ** The hook handlers *)

Lemma try_catch_normal {A} (body : Outcome A) (handler : Exn -> Outcome A) :
  (forall e, exists a, completion (handler e) = Normal a) ->
  exists a, completion (try_catch body handler) = Normal a.
Proof.
  intros Hh. unfold try_catch.
  destruct (completion body) as [a|e] eqn:Hb; [by exists a|].
  simpl. apply Hh.
Qed.

(** What a guarded handler does with an exception of its body: the trace of
    the body up to the throw, then the handler of the [catch]. *)
Lemma try_catch_throw {A} (body : Outcome A) (handler : Exn -> Outcome A) e :
  completion body = Throw e ->
  try_catch body handler =
    {| trace := trace body ++ trace (handler e);
       completion := completion (handler e) |}.
Proof. intros Hb. unfold try_catch. by rewrite Hb. Qed.

(** A [try] whose [catch] only logs to the console: the body as it is
    when it completes, and otherwise the trace of the body up to the throw,
    then the log entry with the exception, and a normal completion. *)
Lemma try_catch_logged (body : Outcome unit) (message : jsstring) :
  try_catch body (fun err => call (ConsoleError message err)) =
    match completion body with
    | Normal _ => body
    | Throw e =>
        {| trace := trace body ++ [ConsoleError message e];
           completion := Normal tt |}
    end.
Proof. unfold try_catch. by destruct (completion body). Qed.

Lemma completion_logged (body : Outcome unit) (message : jsstring) :
  completion (match completion body with
              | Normal _ => body
              | Throw e =>
                  {| trace := trace body ++ [ConsoleError message e];
                     completion := Normal tt |}
              end) = Normal tt.
Proof. by destruct (completion body) as [[]|e] eqn:Hb. Qed.

Section HookFacts.
Variable system : jsstring.
Variable CONFIG_system : option SystemConfig.
Variable localize : jsstring -> Outcome jsstring.

(** [variantDamageLabels] completes normally whatever happens inside:
    without an item it does nothing; with one it does what the statements
    of its [try] do when they complete, and when they throw it adds to what
    they did up to there one entry of the console, which holds the
    exception, and completes. *)
Lemma variantDamageLabels_guarded item :
  completion (variantDamageLabels system CONFIG_system localize item)
  = Normal tt
  /\ variantDamageLabels system CONFIG_system localize item =
       match item with
       | None => mret tt
       | Some it =>
           match
             completion
               (variantDamageLabels_body system CONFIG_system localize it)
           with
           | Normal _ =>
               variantDamageLabels_body system CONFIG_system localize it
           | Throw e =>
               {| trace :=
                    trace (variantDamageLabels_body system CONFIG_system
                             localize it)
                    ++ [ConsoleError (ID ++ lit " | variantDamageLabels") e];
                  completion := Normal tt |}
           end
       end.
Proof.
  destruct item as [it|]; [|by split]. unfold variantDamageLabels.
  rewrite try_catch_logged. split; [apply completion_logged | reflexivity].
Qed.

(** So does [createConfigButton], for every [html]. *)
Lemma createConfigButton_guarded editable html :
  completion (createConfigButton localize editable html) = Normal tt
  /\ createConfigButton localize editable html =
       match completion (createConfigButton_body localize editable html) with
       | Normal _ => createConfigButton_body localize editable html
       | Throw e =>
           {| trace :=
                trace (createConfigButton_body localize editable html)
                ++ [ConsoleError (ID ++ lit " | createConfigButton error") e];
              completion := Normal tt |}
       end.
Proof.
  unfold createConfigButton. rewrite try_catch_logged.
  split; [apply completion_logged | reflexivity].
Qed.

(** So does [manageCardButtons] when it runs on an object; the entry of
    the console begins with the [ID] of that object. *)
Lemma manageCardButtons_guarded id item el :
  completion (manageCardButtons CONFIG_system localize (ThisObject id) item el)
  = Normal tt
  /\ manageCardButtons CONFIG_system localize (ThisObject id) item el =
       match
         completion (manageCardButtons_body CONFIG_system localize item el)
       with
       | Normal _ => manageCardButtons_body CONFIG_system localize item el
       | Throw e =>
           {| trace :=
                trace (manageCardButtons_body CONFIG_system localize item el)
                ++ [ConsoleError
                      (string_or_undefined id
                         ++ lit " | manageCardButtons error") e];
              completion := Normal tt |}
       end.
Proof.
  unfold manageCardButtons. rewrite try_catch_logged.
  split; [apply completion_logged | reflexivity].
Qed.

(** Run on no object, [manageCardButtons] lets no exception of its body
    through as it is, and logs nothing: the handler of its [catch] reads a
    property of [this] and throws itself, after what the body did up to
    its throw.  Run on an object without an [ID] it logs under the name
    ["undefined"] and completes. *)
Lemma manageCardButtons_this_undefined item el e :
  completion (manageCardButtons_body CONFIG_system localize item el)
  = Throw e ->
  (exists e',
     manageCardButtons CONFIG_system localize ThisUndefined item el
     = {| trace :=
            trace (manageCardButtons_body CONFIG_system localize item el);
          completion := Throw e' |})
  /\ manageCardButtons CONFIG_system localize (ThisObject None) item el
     = {| trace :=
            trace (manageCardButtons_body CONFIG_system localize item el)
            ++ [ConsoleError (lit "undefined | manageCardButtons error") e];
          completion := Normal tt |}.
Proof.
  intros Hb. unfold manageCardButtons. split.
  - rewrite (try_catch_throw _ _ e Hb). cbn [throw trace completion].
    rewrite app_nil_r. by eexists.
  - by rewrite (try_catch_throw _ _ e Hb).
Qed.

(** [createChatLogListeners] lets the exception through for a jQuery
    collection and for an array. *)
Lemma createChatLogListeners_throws html :
  (exists es, html = HtmlJQuery es \/ html = HtmlArray es) ->
  createChatLogListeners html =
    throw (TypeError "html.querySelectorAll is not a function").
Proof. intros (es & [-> | ->]); reflexivity. Qed.
End HookFacts.

Lemma variantDamageLabels_guarded_witness :
  exists e,
    variantDamageLabels (lit "DND5E") (Some system_config) no_localisation
      (Some item0)
    = {| trace := [ConsoleError (lit "rollgroups | variantDamageLabels") e];
         completion := Normal tt |}.
Proof.
  eexists.
  exact (proj2 (variantDamageLabels_guarded (lit "DND5E") (Some system_config)
                  no_localisation (Some item0))).
Defined.

Lemma createConfigButton_guarded_witness :
  exists e,
    createConfigButton no_localisation true (HtmlJQuery [sheet])
    = {| trace := [ConsoleError (lit "rollgroups | createConfigButton error") e];
         completion := Normal tt |}.
Proof.
  eexists.
  exact (proj2 (createConfigButton_guarded no_localisation true
                  (HtmlJQuery [sheet]))).
Defined.

Lemma manageCardButtons_guarded_witness :
  exists e,
    manageCardButtons None no_translation (ThisObject (Some ID)) trap chat_card
    = {| trace := [ConsoleError (lit "rollgroups | manageCardButtons error") e];
         completion := Normal tt |}.
Proof.
  eexists.
  exact (proj2 (manageCardButtons_guarded None no_translation (Some ID) trap
                  chat_card)).
Defined.

Lemma manageCardButtons_this_undefined_witness :
  (exists e',
     manageCardButtons None no_translation ThisUndefined trap chat_card
     = {| trace := []; completion := Throw e' |})
  /\ exists e,
       manageCardButtons None no_translation (ThisObject None) trap chat_card
       = {| trace :=
              [ConsoleError (lit "undefined | manageCardButtons error") e];
            completion := Normal tt |}.
Proof.
  destruct (manageCardButtons_this_undefined None no_translation trap
              chat_card _ eq_refl) as [H1 H2].
  split; [exact H1 | eexists; exact H2].
Defined.

(** C7, at a chat message whose [html] is a jQuery collection holding the
    card.  By the claim the handler of [renderChatMessage] catches the
    exception and logs it; the source has no [try] there and the exception
    reaches the host with nothing logged.  The handler of [renderItemSheet],
    which is guarded, completes normally on the same argument. *)
Theorem createChatLogListeners_unguarded :
  createChatLogListeners (HtmlJQuery [chat_card]) =
    {| trace := [];
       completion := Throw (TypeError "html.querySelectorAll is not a function") |}
  /\ completion (createConfigButton no_translation true (HtmlJQuery [chat_card]))
     = Normal tt.
Proof. split; vm_compute; reflexivity. Qed.

(** ** Further facts *)

(** When [createDamageButtons] makes buttons, it makes one for each group
    of the configuration. *)
Lemma createDamageButtons_one_per_group CONFIG_system item bs :
  createDamageButtons CONFIG_system item = Some bs ->
  length bs = length (configured_groups item).
Proof.
  intros H.
  destruct (createDamageButtons_cases CONFIG_system item)
    as [(_ & _ & bs' & Hbs & Hlen) | [_ Hnone]]; congruence.
Qed.

Lemma createDamageButtons_one_per_group_witness :
  exists bs, createDamageButtons (Some system_config) torch = Some bs
             /\ length bs = 1%nat.
Proof.
  eexists. split; [reflexivity|].
  exact (createDamageButtons_one_per_group (Some system_config) torch _ eq_refl).
Defined.

(** When [createSaveButtons] makes buttons, their abilities are, in order,
    the configured ones that differ from the save ability of the item and
    pass the membership test of the abilities table. *)
Lemma createSaveButtons_abilities CONFIG_system item bs :
  completion (createSaveButtons CONFIG_system (Some item)) = Normal (Some bs) ->
  data_ability <$> bs = Spec.extra_saves CONFIG_system item
  /\ forall b, b ∈ bs ->
       save item ≫= ability <> Some (data_ability b)
       /\ has_property (data_ability b)
            (default ∅ (CONFIG_system ≫= abilities)) = true.
Proof.
  intros H. apply createSaveButtons_buttons in H as Hbs. split; [exact Hbs|].
  intros b Hb.
  assert (Hin : data_ability b ∈ Spec.extra_saves CONFIG_system item).
  { rewrite <- Hbs. by apply list_elem_of_fmap_2. }
  split; [by apply (extra_saves_not_own CONFIG_system item)|].
  unfold Spec.extra_saves in Hin.
  apply list_elem_of_In, filter_In in Hin as [_ Hin].
  unfold extra_save in Hin. by apply andb_true_iff in Hin as [_ ?].
Qed.

Lemma createSaveButtons_abilities_witness :
  exists bs,
    completion (createSaveButtons (Some system_config) (Some trap))
    = Normal (Some bs)
    /\ data_ability <$> bs = [lit "toString"].
Proof.
  eexists. split; [reflexivity|].
  exact (proj1 (createSaveButtons_abilities (Some system_config) trap _ eq_refl)).
Defined.

(** When [createDamageButtons] gives [null], [manageCardButtons] leaves the
    damage button and the versatile button of the card as they are: what is
    left of its body are the blade cantrip buttons, the saving throw buttons
    and the write back of the content. *)
Lemma manageCardButtons_without_groups CONFIG_system localize item el :
  createDamageButtons CONFIG_system item = None ->
  manageCardButtons_body CONFIG_system localize item el =
    (match
       querySelector el (lit ".card-buttons button[data-action='damage']")
     with
     | Some _ => add_blade_cantrip localize item el
     | None => mret tt
     end;;
     add_save_buttons CONFIG_system item el;;
     call StoreContent).
Proof.
  intros Hnone. unfold manageCardButtons_body.
  destruct (querySelector el _) as [damageButton|]; [|reflexivity].
  rewrite Hnone. unfold replace_damage_button, adjust_versatile.
  rewrite (bool_decide_eq_false_2 (is_Some None)) by (by intros [? ?]).
  cbn [andb]. by rewrite !Outcome_left_identity.
Qed.

Lemma manageCardButtons_without_groups_witness :
  manageCardButtons_body (Some system_config) no_translation item0 chat_card =
    {| trace := [StoreContent]; completion := Normal tt |}.
Proof.
  exact (manageCardButtons_without_groups (Some system_config) no_translation
           item0 chat_card eq_refl).
Defined.

(** ** [rollDamageGroup] and [rollDamageFromChat] past their early exits *)

Lemma constructClone_eq item ps :
  constructClone item ps =
    {| trace := clone_calls item ps;
       completion := Normal (with_damage_parts item ps) |}.
Proof.
  unfold constructClone, clone_calls. simpl.
  by destruct (has_prepareData item).
Qed.

(** [rollDamageGroup] in one equation: the plain roll of the item when
    there is no group, and otherwise what the selection of the chosen group
    decides. *)
Lemma rollDamageGroup_eq {Event Options : Type}
    (this : Item) (rollgroup : Num) (config : RollDamageConfig Event Options) :
  rollDamageGroup this rollgroup config =
    match configured_groups this with
    | [] => mret (rollDamage_optional this config)
    | _ :: _ =>
        match selection (group_parts this rollgroup)
                        (default [] (damage_parts this)) with
        | [] => {| trace := [NotifyError (lit "ROLLGROUPS.RollGroupEmpty")];
                   completion := Normal RollNull |}
        | p :: sel =>
            {| trace := clone_calls this (p :: sel);
               completion :=
                 Normal (rollDamage_optional
                           (with_damage_parts this (p :: sel)) config) |}
        end
    end.
Proof.
  unfold rollDamageGroup, configured_groups in *.
  destruct (default [] (flags_config this ≫= groups)) as [|g gs] eqn:Hdef;
    [reflexivity|].
  simpl length. simpl Nat.eqb. cbv iota zeta.
  assert (Hraw : group_parts this rollgroup
                 = default [] (g0 ← array_get (g :: gs) rollgroup; parts g0)).
  { unfold group_parts. destruct (flags_config this) as [cfg|]; [|done].
    simpl in *. destruct (groups cfg) as [gs'|]; [|done].
    simpl in *. by rewrite Hdef. }
  rewrite <- Hraw.
  destruct (group_parts this rollgroup) as [|v raw] eqn:Hg.
  - simpl. unfold selection. by rewrite select_from_no_indices.
  - simpl length. simpl Nat.eqb. cbv iota.
    rewrite constructParts_eq. rewrite Hg.
    destruct (selection (v :: raw) _) as [|p sel] eqn:Hsel; [reflexivity|].
    unfold mbind, Outcome_bind, bind. cbn -[constructClone].
    rewrite constructClone_eq. cbn. by rewrite app_nil_r.
Qed.

(** With groups in the configuration, [rollDamageGroup] never rolls the
    item itself: when the chosen group selects parts it clones the item
    with exactly these parts, prepares the clone and rolls the clone with
    the configuration it was given; when it selects none, be it for a
    missing group, an empty list or indices that name no part, it notifies
    the user once and gives [null]. *)
Lemma rollDamageGroup_configured {Event Options : Type}
    (this : Item) (rollgroup : Num) (config : RollDamageConfig Event Options) :
  configured_groups this <> [] ->
  let sel := selection (group_parts this rollgroup)
                       (default [] (damage_parts this)) in
  rollDamageGroup this rollgroup config =
    match sel with
    | [] => {| trace := [NotifyError (lit "ROLLGROUPS.RollGroupEmpty")];
               completion := Normal RollNull |}
    | _ :: _ =>
        {| trace := clone_calls this sel;
           completion :=
             Normal (rollDamage_optional (with_damage_parts this sel) config) |}
    end.
Proof.
  intros Hgs. cbv zeta. rewrite rollDamageGroup_eq.
  destruct (configured_groups this); [done|].
  by destruct (selection _ _).
Qed.

Lemma rollDamageGroup_configured_witness :
  rollDamageGroup torch (NInt 0) plain_roll =
    {| trace := [ItemClone torch [fire];
                 PrepareData (with_damage_parts torch [fire])];
       completion :=
         Normal (RollDamageOf (with_damage_parts torch [fire]) plain_roll) |}.
Proof.
  refine (rollDamageGroup_configured torch (NInt 0) plain_roll _).
  discriminate.
Defined.

Lemma rollDamageFromChat_by_uuid {Event : Type} (click : ChatClick Event) item :
  itemData click = None -> item_by_uuid click = Some item ->
  rollDamageFromChat click =
    match selection (group_parts item (chat_group click))
                    (default [] (damage_parts item)) with
    | [] => {| trace := [NotifyError (lit "ROLLGROUPS.RollGroupEmpty")];
               completion := Normal ChatUndefined |}
    | p :: sel =>
        {| trace := clone_calls item (p :: sel);
           completion :=
             if has_rollDamage item then
               Normal (ChatRollDamageOf (with_damage_parts item (p :: sel))
                         {| chat_event := click_event click;
                            chat_spellLevel :=
                              match spellLevel_attr click with
                              | Some (NInt z) => VNum (NInt z)
                              | _ => system_level item
                              end;
                            chat_versatile :=
                              endsWith (default [] (action_attr click))
                                       (lit "versatile") |})
             else Throw (TypeError "clone.rollDamage is not a function") |}
    end.
Proof.
  intros Hdata Huuid. unfold rollDamageFromChat, findItem.
  rewrite Hdata, Huuid. rewrite Outcome_left_identity.
  rewrite constructParts_eq.
  destruct (selection _ _) as [|p sel]; [reflexivity|].
  unfold mbind, Outcome_bind, bind. cbn -[constructClone endsWith].
  rewrite constructClone_eq. cbn -[endsWith].
  destruct (has_rollDamage item); cbn -[endsWith]; by rewrite ?app_nil_r.
Qed.

(** A click on a group button and a call of [rollDamageGroup] for the same
    group do the same for an item that has groups: the same host calls in
    the same order, and a roll of the same clone or no roll at all.  For an
    item without groups they part: [rollDamageGroup] rolls the item itself,
    the click notifies the user that the group is empty and rolls
    nothing. *)
Lemma rollDamageFromChat_like_rollDamageGroup {Event Options : Type}
    (click : ChatClick Event) (item : Item)
    (config : RollDamageConfig Event Options) :
  itemData click = None -> item_by_uuid click = Some item ->
  has_rollDamage item = true ->
  let chat := rollDamageFromChat click in
  let api := rollDamageGroup item (chat_group click) config in
  (configured_groups item <> [] ->
     trace chat = trace api
     /\ exists c a, completion chat = Normal c /\ completion api = Normal a
                    /\ chat_rolled_target c = rolled_target a)
  /\ (configured_groups item = [] ->
     api = {| trace := []; completion := Normal (RollDamageOf item config) |}
     /\ chat = {| trace := [NotifyError (lit "ROLLGROUPS.RollGroupEmpty")];
                  completion := Normal ChatUndefined |}).
Proof.
  intros Hdata Huuid Hroll. cbv zeta.
  rewrite (rollDamageFromChat_by_uuid click item Hdata Huuid). split.
  - intros Hgs. rewrite rollDamageGroup_eq.
    destruct (configured_groups item) as [|g gs]; [done|].
    destruct (selection _ _) as [|p sel]; simpl.
    + split; [reflexivity|]. by eexists _, _.
    + split; [reflexivity|]. rewrite Hroll.
      eexists _, _. split; [reflexivity|]. split; [reflexivity|].
      unfold rollDamage_optional. simpl. by rewrite Hroll.
  - intros Hgs. split.
    + unfold rollDamageGroup. unfold configured_groups in Hgs. rewrite Hgs.
      simpl. unfold rollDamage_optional. by rewrite Hroll.
    + assert (Hraw : group_parts item (chat_group click) = []).
      { unfold group_parts, configured_groups in *.
        destruct (flags_config item) as [cfg|]; [|done]. simpl in *.
        destruct (groups cfg) as [gs|]; [|done]. simpl in *. subst gs.
        by destruct (chat_group click) as [z|]; [simpl; destruct (0 <=? z)|]. }
      rewrite Hraw. unfold selection. by rewrite select_from_no_indices.
Qed.

Lemma rollDamageFromChat_like_rollDamageGroup_witness :
  trace (rollDamageFromChat torch_click)
  = trace (rollDamageGroup torch (NInt 0) plain_roll)
  /\ rollDamageGroup item0 (NInt 0) plain_roll
     = {| trace := []; completion := Normal (RollDamageOf item0 plain_roll) |}.
Proof.
  split.
  - destruct (rollDamageFromChat_like_rollDamageGroup torch_click torch plain_roll
                eq_refl eq_refl eq_refl) as [H _].
    apply H. discriminate.
  - destruct (rollDamageFromChat_like_rollDamageGroup
                {| click_event := tt; itemData := None; owner_found := true;
                   item_by_uuid := Some item0; group_attr := None;
                   spellLevel_attr := None; action_attr := None |}
                item0 plain_roll eq_refl eq_refl eq_refl) as [_ H].
    apply H. reflexivity.
Defined.

(** A click rolls nothing and clones nothing when no item is found: with
    item data embedded in the message and no owner the user is told that
    the owner is missing, whatever [data-item-uuid] points to; without
    embedded data and without an item for the uuid nothing happens at
    all. *)
Lemma rollDamageFromChat_no_item {Event : Type} (click : ChatClick Event) :
  (is_Some (itemData click) -> owner_found click = false ->
     rollDamageFromChat click =
       {| trace := [NotifyError (lit "ROLLGROUPS.ItemOwnerMissing")];
          completion := Normal ChatUndefined |})
  /\ (itemData click = None -> item_by_uuid click = None ->
     rollDamageFromChat click =
       {| trace := []; completion := Normal ChatUndefined |}).
Proof.
  unfold rollDamageFromChat, findItem. split.
  - intros [item ->] ->. reflexivity.
  - intros -> ->. reflexivity.
Qed.

Lemma rollDamageFromChat_no_item_witness :
  rollDamageFromChat orphan_click =
    {| trace := [NotifyError (lit "ROLLGROUPS.ItemOwnerMissing")];
       completion := Normal ChatUndefined |}.
Proof.
  destruct (rollDamageFromChat_no_item orphan_click) as [H _].
  apply H; [by eexists | reflexivity].
Defined.

(** ** The dialog of the groups *)

Section DialogFacts.
Variable type_label : jsstring -> jsstring.
Variable localize : jsstring -> jsstring.

Lemma ticked_from (g : Group) (i k : nat) (ps : list DamagePart) :
  snd <$> filter (fun rp : GroupConfig.Row * DamagePart =>
                    GroupConfig.checked rp.1 = true)
            (zip (GroupConfig.rows
                    (GroupConfig.group_rows
                       (imap (fun idx (p : DamagePart) =>
                                {| GroupConfig.part_formula := p.1;
                                   GroupConfig.part_label := type_label p.2;
                                   GroupConfig.part_idx := (k + idx)%nat |}) ps)
                       i g))
                 ps)
  = select_from (default [] (parts g)) k ps.
Proof.
  revert k. induction ps as [|p ps IH]; intros k; [reflexivity|].
  rewrite select_from_cons, <- (IH (S k)). simpl.
  rewrite filter_cons. simpl. rewrite Nat.add_0_r.
  assert (Hext :
    imap ((fun idx (q : DamagePart) =>
             {| GroupConfig.part_formula := q.1;
                GroupConfig.part_label := type_label q.2;
                GroupConfig.part_idx := (k + idx)%nat |}) ∘ S) ps
    = imap (fun idx (q : DamagePart) =>
              {| GroupConfig.part_formula := q.1;
                 GroupConfig.part_label := type_label q.2;
                 GroupConfig.part_idx := (S k + idx)%nat |}) ps).
  { apply imap_ext. intros j q _. simpl. f_equal. lia. }
  rewrite Hext.
  destruct (decide (listed (default [] (parts g)) k)) as [Hin|Hout].
  - rewrite decide_True; [reflexivity|].
    apply bool_decide_eq_true. by apply elem_of_list_to_set.
  - rewrite decide_False; [reflexivity|].
    rewrite bool_decide_eq_true. by rewrite elem_of_list_to_set.
Qed.

(** The dialog shows for every group one check box for each damage part,
    and the boxes it shows ticked are those of the parts that
    [constructParts] gives for the group: none ticked means the
    notification and [false]. *)
Lemma prepareContext_ticks_what_is_rolled item i gr :
  GroupConfig.ctx_groups (GroupConfig._prepareContext type_label localize item)
    !! i = Some gr ->
  length (GroupConfig.rows gr) = length (default [] (damage_parts item))
  /\ constructParts item (NInt (Z.of_nat i)) =
       match ticked_parts gr item with
       | [] => {| trace := [NotifyError (lit "ROLLGROUPS.RollGroupEmpty")];
                  completion := Normal None |}
       | _ :: _ => {| trace := [];
                      completion := Normal (Some (ticked_parts gr item)) |}
       end.
Proof.
  unfold GroupConfig._prepareContext. cbn [GroupConfig.ctx_groups].
  rewrite list_lookup_imap.
  change (default [] (flags_config item ≫= groups))
    with (configured_groups item).
  destruct (configured_groups item !! i) as [g|] eqn:Hg; [|done].
  simpl. intros [= <-]. split.
  - simpl. unfold GroupConfig.context_parts.
    by rewrite length_fmap, length_imap.
  - rewrite constructParts_eq. cbv zeta.
    rewrite (group_parts_lookup item i g Hg).
    assert (Hticked :
      ticked_parts
        (GroupConfig.group_rows (GroupConfig.context_parts type_label item) i g)
        item
      = selection (default [] (parts g)) (default [] (damage_parts item)))
      by exact (ticked_from g i 0 (default [] (damage_parts item))).
    by rewrite Hticked.
Qed.
End DialogFacts.

Lemma prepareContext_ticks_what_is_rolled_witness :
  exists gr,
    GroupConfig.ctx_groups (GroupConfig._prepareContext id id lantern) !! 1%nat
    = Some gr
    /\ GroupConfig.checked <$> GroupConfig.rows gr = [false; true]
    /\ constructParts lantern (NInt 1) =
         {| trace := []; completion := Normal (Some [cold]) |}.
Proof.
  eexists. split; [reflexivity|]. split; [reflexivity|].
  exact (proj2 (prepareContext_ticks_what_is_rolled id id lantern 1 _ eq_refl)).
Defined.

Section RoundTrip.
Variable type_label : jsstring -> jsstring.
Variable localize : jsstring -> jsstring.

Local Abbreviation resubmitted := (Spec.resubmitted type_label localize).

Lemma rows_checked item i g j :
  GroupConfig.checked
    <$> GroupConfig.rows
          (GroupConfig.group_rows (GroupConfig.context_parts type_label item) i g)
        !! j
  = (fun _ => bool_decide (listed (default [] (parts g)) j))
      <$> default [] (damage_parts item) !! j.
Proof.
  unfold GroupConfig.group_rows, GroupConfig.context_parts.
  cbn [GroupConfig.rows]. rewrite list_lookup_fmap, list_lookup_imap.
  destruct (default [] (damage_parts item) !! j) as [p|]; [|reflexivity].
  simpl. f_equal. apply bool_decide_ext. unfold listed.
  by rewrite elem_of_list_to_set.
Qed.

Lemma resubmitted_lookup item i :
  resubmitted item !! i =
    (fun g =>
       let gr := GroupConfig.group_rows
                   (GroupConfig.context_parts type_label item) i g in
       {| label :=
            Some (if truthy (GroupConfig.group_label gr)
                  then GroupConfig.group_label gr
                  else localize (lit "ROLLGROUPS.GroupPlaceholder"));
          parts :=
            Some ((fun kv : Num * bool => VNum kv.1)
                    <$> List.filter (fun kv : Num * bool => kv.2)
                          (imap (fun j r => (NInt (Z.of_nat j),
                                             GroupConfig.checked r))
                                (GroupConfig.rows gr))) |})
      <$> configured_groups item !! i.
Proof.
  unfold Spec.resubmitted, GroupConfig._prepareSubmitData,
    GroupConfig._prepareContext.
  cbn [GroupConfig.ctx_groups default]. unfold id.
  rewrite !list_lookup_fmap, list_lookup_imap.
  unfold configured_groups, default.
  destruct (_ !! i); reflexivity.
Qed.

Lemma listed_resubmitted item i g g' j :
  configured_groups item !! i = Some g ->
  resubmitted item !! i = Some g' ->
  listed (default [] (parts g')) j
  <-> (j < length (default [] (damage_parts item)))%nat
      /\ listed (default [] (parts g)) j.
Proof.
  intros Hg. rewrite resubmitted_lookup, Hg.
  cbn -[GroupConfig.group_rows]. intros [= <-].
  cbn -[GroupConfig.group_rows].
  unfold listed at 1. rewrite <- list_fmap_compose.
  rewrite list_elem_of_fmap. split.
  - intros ([n b] & Hn & Hin). simpl in Hn. subst n.
    apply list_elem_of_In, filter_In in Hin as [Hin Hb].
    apply list_elem_of_In, elem_of_lookup_imap in Hin as (j' & r & Heq & Hr).
    injection Heq as Hj Hb'. apply Nat2Z.inj in Hj. subst j'. simpl in Hb.
    change (GroupConfig.rows
              (GroupConfig.group_rows
                 (GroupConfig.context_parts type_label item) i g) !! j
            = Some r) in Hr.
    pose proof (rows_checked item i g j) as Hc. rewrite Hr in Hc. simpl in Hc.
    destruct (default [] (damage_parts item) !! j) as [p|] eqn:Hp;
      [|discriminate].
    simpl in Hc. injection Hc as Hc. split.
    + by apply lookup_lt_Some in Hp.
    + change (listed (default [] (parts g)) j).
      apply (bool_decide_eq_true_1 _). congruence.
  - intros [Hlt Hl].
    destruct (lookup_lt_is_Some_2 _ _ Hlt) as [p Hp].
    pose proof (rows_checked item i g j) as Hc. rewrite Hp in Hc.
    destruct (GroupConfig.rows _ !! j) as [r|] eqn:Hr; [|discriminate].
    injection Hc as Hc.
    exists (NInt (Z.of_nat j), GroupConfig.checked r). split; [reflexivity|].
    apply list_elem_of_In, filter_In. split.
    + apply list_elem_of_In, elem_of_lookup_imap. exists j, r.
      split; [reflexivity | exact Hr].
    + simpl. rewrite Hc. by apply bool_decide_eq_true_2.
Qed.

(** Opening the dialog and submitting it as shown changes nothing of what
    the groups roll: an item with the same damage parts and the groups that
    come back gives, in [constructParts], for every index what the item
    gave before; and as many groups come back as there were. *)
Lemma dialog_round_trip item item' idx :
  damage_parts item' = damage_parts item ->
  configured_groups item' = resubmitted item ->
  constructParts item' idx = constructParts item idx
  /\ length (configured_groups item') = length (configured_groups item).
Proof.
  intros Hps Hgs. split.
  - rewrite !constructParts_eq. cbv zeta. rewrite Hps.
    assert (Hsel :
      selection (group_parts item' idx) (default [] (damage_parts item))
      = selection (group_parts item idx) (default [] (damage_parts item))).
    { destruct (group_index_cases (configured_groups item) idx)
        as [(i & g & -> & Hg) | Hnone].
      - pose proof (resubmitted_lookup item i) as Hl. rewrite Hg in Hl.
        simpl in Hl. rewrite <- Hgs in Hl.
        rewrite (group_parts_lookup item i g Hg).
        rewrite (group_parts_lookup item' i _ Hl).
        apply select_from_ext. intros j Hj.
        rewrite Hgs in Hl.
        rewrite (listed_resubmitted item i g _ j Hg Hl). split; [tauto|].
        intros H. split; [lia | exact H].
      - rewrite (group_parts_none item idx Hnone).
        rewrite (group_parts_none item' idx); [reflexivity|].
        intros i Hi. rewrite Hgs, resubmitted_lookup.
        by rewrite (Hnone i Hi). }
    by rewrite Hsel.
  - rewrite Hgs. unfold Spec.resubmitted, GroupConfig._prepareSubmitData.
    unfold GroupConfig._prepareContext.
    cbn [GroupConfig.ctx_groups default]. unfold id.
    by rewrite !length_fmap, length_imap.
Qed.
End RoundTrip.

Lemma dialog_round_trip_witness :
  resubmitted id id lantern =
    [ {| label := Some (lit "Burn"); parts := Some [VNum (NInt 0)] |};
      {| label := Some (lit "ROLLGROUPS.GroupPlaceholder");
         parts := Some [VNum (NInt 1)] |} ]
  /\ constructParts
       (with_config
          {| groups := Some (resubmitted id id lantern);
             versatile := VNum (NInt 1); bladeCantrip := false;
             saves := None |} lantern) (NInt 1)
     = constructParts lantern (NInt 1).
Proof.
  split; [reflexivity|].
  exact (proj1 (dialog_round_trip id id lantern
                 (with_config
                    {| groups := Some (resubmitted id id lantern);
                       versatile := VNum (NInt 1); bladeCantrip := false;
                       saves := None |} lantern)
                 (NInt 1) eq_refl eq_refl)).
Defined.

(** ** Adding and deleting groups *)

Lemma group_parts_nat item (i : nat) :
  group_parts item (NInt (Z.of_nat i))
  = default [] (configured_groups item !! i ≫= parts).
Proof.
  destruct (configured_groups item !! i) as [g|] eqn:Hg.
  - by rewrite (group_parts_lookup item i g Hg).
  - apply group_parts_none. intros j [= Hj]. apply Nat2Z.inj in Hj.
    by subst j.
Qed.

Lemma group_parts_no_index item idx :
  (forall i : nat, idx <> NInt (Z.of_nat i)) -> group_parts item idx = [].
Proof.
  intros H. apply group_parts_none. intros i Hi. by destruct (H i).
Qed.

Lemma constructParts_same_indices item item' idx idx' :
  damage_parts item' = damage_parts item ->
  group_parts item' idx' = group_parts item idx ->
  constructParts item' idx' = constructParts item idx.
Proof. intros Hps Hg. unfold constructParts. by rewrite Hps, Hg. Qed.

Lemma splice1_index {A} (a : list A) (i : nat) :
  GroupConfig.splice1 a (NInt (Z.of_nat i)) = delete i a.
Proof.
  unfold GroupConfig.splice1, GroupConfig.splice_start. cbv zeta.
  rewrite (proj2 (Z.ltb_ge _ _)) by lia. rewrite Nat2Z.id.
  rewrite delete_take_drop.
  destruct (decide (i <= length a)%nat).
  - by rewrite Nat.min_l.
  - rewrite Nat.min_r by lia. by rewrite !take_ge, !drop_ge by lia.
Qed.



(** The index of the delete at the edges: without a [data-idx] the first
    group goes, an index past the end deletes nothing, and a negative
    index counts from the end. *)
Lemma onDeleteGroup_edge_indices (flag : option (list Group)) :
  GroupConfig._onDeleteGroup flag NaN = drop 1 (default [] flag)
  /\ (forall i : nat,
        (length (default [] flag) <= i)%nat ->
        GroupConfig._onDeleteGroup flag (NInt (Z.of_nat i)) = default [] flag)
  /\ (forall k : nat,
        (0 < k <= length (default [] flag))%nat ->
        GroupConfig._onDeleteGroup flag (NInt (- Z.of_nat k))
        = delete (length (default [] flag) - k)%nat (default [] flag)).
Proof.
  unfold GroupConfig._onDeleteGroup. split; [|split].
  - reflexivity.
  - intros i Hi. rewrite splice1_index.
    rewrite delete_take_drop. by rewrite take_ge, drop_ge, app_nil_r by lia.
  - intros k Hk. rewrite <- splice1_index.
    unfold GroupConfig.splice1, GroupConfig.splice_start. cbv zeta.
    rewrite (proj2 (Z.ltb_lt _ _)) by lia.
    rewrite (proj2 (Z.ltb_ge _ _)) by lia. rewrite Nat2Z.id.
    replace (Z.to_nat (Z.max (Z.of_nat (length (default [] flag))
                              + - Z.of_nat k) 0))
      with (length (default [] flag) - k)%nat by lia.
    by rewrite Nat.min_l by lia.
Qed.

Lemma onDeleteGroup_edge_indices_witness :
  GroupConfig._onDeleteGroup (groups two_groups) NaN
  = [ {| label := None; parts := Some [VNum (NInt 7); VNum (NInt 1)] |} ]
  /\ GroupConfig._onDeleteGroup (groups two_groups) (NInt 2)
     = default [] (groups two_groups)
  /\ GroupConfig._onDeleteGroup (groups two_groups) (NInt (-1))
     = [ {| label := Some (lit "Burn"); parts := Some [VNum (NInt 0)] |} ].
Proof.
  destruct (onDeleteGroup_edge_indices (groups two_groups)) as (H0 & H1 & H2).
  exact (conj H0 (conj (H1 2%nat (Nat.le_refl 2))
                       (H2 1%nat (conj Nat.lt_0_1 (Nat.le_succ_diag_r 1))))).
Defined.

Lemma group_parts_onAddGroup item item' idx :
  configured_groups item'
  = GroupConfig._onAddGroup (cfg ← flags_config item; groups cfg) ->
  group_parts item' idx = group_parts item idx.
Proof.
  unfold GroupConfig._onAddGroup.
  change (default [] (cfg ← flags_config item; groups cfg))
    with (configured_groups item). intros Hgs.
  destruct idx as [z|]; [|by rewrite !group_parts_no_index].
  destruct (decide (0 <= z)) as [Hz|Hz].
  - replace z with (Z.of_nat (Z.to_nat z)) by lia.
    rewrite !group_parts_nat, Hgs.
    destruct (decide (Z.to_nat z < length (configured_groups item))%nat)
      as [Hlt|Hge].
    + by rewrite lookup_app_l.
    + rewrite lookup_app_r by lia.
      rewrite (lookup_ge_None_2 (configured_groups item)) by lia.
      by destruct (Z.to_nat z - length (configured_groups item))%nat
        as [|[|n]].
  - rewrite !group_parts_no_index; [reflexivity | |];
      intros i [= Hi]; lia.
Qed.

(** A group that is added is empty, so it changes nothing for the groups
    there are: [constructParts] gives for every index what it gave.  But
    the first group that is added to an item turns [rollDamageGroup] from
    the plain roll of the item into the notification of an empty group,
    whatever group is asked for, until parts are ticked. *)
Lemma onAddGroup_first_group {Event Options : Type} item item' :
  damage_parts item' = damage_parts item ->
  configured_groups item'
  = GroupConfig._onAddGroup (cfg ← flags_config item; groups cfg) ->
  (forall idx, constructParts item' idx = constructParts item idx)
  /\ length (configured_groups item') = S (length (configured_groups item))
  /\ (configured_groups item = [] ->
      forall rollgroup (config : RollDamageConfig Event Options),
        rollDamageGroup item rollgroup config
        = mret (rollDamage_optional item config)
        /\ rollDamageGroup item' rollgroup config
           = {| trace := [NotifyError (lit "ROLLGROUPS.RollGroupEmpty")];
                completion := Normal RollNull |}).
Proof.
  intros Hps Hgs. split; [|split].
  - intros idx. apply constructParts_same_indices; [exact Hps|].
    by apply group_parts_onAddGroup.
  - rewrite Hgs. unfold GroupConfig._onAddGroup.
    change (default [] (cfg ← flags_config item; groups cfg))
      with (configured_groups item).
    rewrite length_app. simpl. lia.
  - intros Hnone rollgroup config. rewrite !rollDamageGroup_eq.
    rewrite (group_parts_onAddGroup item item' rollgroup Hgs).
    rewrite Hnone. split; [reflexivity|].
    destruct (configured_groups item') as [|g gs] eqn:Hgs'.
    + exfalso. symmetry in Hgs. unfold GroupConfig._onAddGroup in Hgs.
      by apply app_nil in Hgs as [_ ?].
    + assert (Hraw : group_parts item rollgroup = []).
      { destruct (group_index_cases (configured_groups item) rollgroup)
          as [(i & g0 & _ & Hg0) | Hn].
        - by rewrite Hnone in Hg0.
        - by apply group_parts_none. }
      rewrite Hraw. unfold selection. by rewrite select_from_no_indices.
Qed.

Lemma onAddGroup_first_group_witness :
  rollDamageGroup item0 (NInt 0) plain_roll
  = mret (rollDamage_optional item0 plain_roll)
  /\ rollDamageGroup
       (with_config
          {| groups := Some (GroupConfig._onAddGroup None);
             versatile := VUndefined; bladeCantrip := false; saves := None |}
          item0) (NInt 0) plain_roll
     = {| trace := [NotifyError (lit "ROLLGROUPS.RollGroupEmpty")];
          completion := Normal RollNull |}.
Proof.
  exact (proj2 (proj2 (onAddGroup_first_group item0
                  (with_config
                     {| groups := Some (GroupConfig._onAddGroup None);
                        versatile := VUndefined; bladeCantrip := false;
                        saves := None |} item0)
                  eq_refl eq_refl)) eq_refl (NInt 0) plain_roll).
Defined.

(** ** The saving throw buttons and their dialog *)

Lemma coalesce_not_nullish v w : nullish w = false -> nullish (coalesce v w) = false.
Proof. unfold coalesce. by destruct (nullish v) eqn:Hv. Qed.

Lemma mapM_save_button sys table item xs :
  abilities sys = Some table ->
  Forall (fun abi => has_property abi table = true) xs ->
  mapM (save_button (Some sys) item) xs
  = mret (labelled_button table item <$> xs).
Proof.
  intros Ht. induction 1 as [|abi xs Habi _ IH]; [reflexivity|].
  cbn [mapM]. cbn [mapM] in IH. rewrite IH.
  unfold save_button, abilities_label, labelled_button. rewrite Ht.
  unfold has_property in Habi. rewrite fmap_cons.
  destruct (table !! abi) as [a|] eqn:Ha; [by rewrite !Outcome_left_identity|].
  simpl in Habi. rewrite Habi. by rewrite !Outcome_left_identity.
Qed.

Lemma extra_saves_has_property sys table item :
  abilities sys = Some table ->
  Forall (fun abi => has_property abi table = true) (extra_saves (Some sys) item).
Proof.
  intros Ht. apply Forall_forall. intros abi Hin.
  unfold extra_saves in Hin. apply list_elem_of_In, filter_In in Hin as [_ H].
  unfold extra_save in H. apply andb_true_iff in H as [_ H].
  simpl in H. by rewrite Ht in H.
Qed.

(** With an abilities table, [createSaveButtons] in one equation. *)
Lemma createSaveButtons_eq sys table item :
  abilities sys = Some table ->
  createSaveButtons (Some sys) (Some item) =
    mret (if hasSave item then
            match extra_saves (Some sys) item with
            | [] => None
            | abi :: l => Some (labelled_button table item <$> abi :: l)
            end
          else None).
Proof.
  intros Ht. unfold createSaveButtons.
  destruct (hasSave item); [|reflexivity]. cbn [negb].
  change (List.filter (extra_save (Some sys) item)
            (default [] (cfg ← flags_config item; saves cfg)))
    with (extra_saves (Some sys) item).
  pose proof (extra_saves_has_property sys table item Ht) as Hall.
  destruct (extra_saves (Some sys) item) as [|abi l]; [reflexivity|].
  cbn [length Nat.eqb].
  rewrite (mapM_save_button sys table item (abi :: l) Ht Hall).
  by rewrite Outcome_left_identity.
Qed.

Lemma labelled_button_ability table item (l : list jsstring) :
  data_ability <$> (labelled_button table item <$> l) = l.
Proof.
  induction l as [|abi l IH]; [reflexivity|].
  rewrite !fmap_cons, IH. reflexivity.
Qed.

(** With an abilities table in the configuration of the system, reading
    the labels cannot fail in [createSaveButtons]: it completes normally (the
    host's [getSaveDC] and [format] taken as returning).  When it gives
    buttons there is at least one; each carries the label that the table
    has for its ability, none for an inherited member; and its difficulty
    class is what [getSaveDC] returns, or else the [dc] of the save of the
    item, or else 10, each passed over when there is no such thing or it is
    [undefined] or [null], so it is never [undefined] or [null]. *)
Lemma createSaveButtons_with_table sys table (item : option Item) :
  abilities sys = Some table ->
  exists r,
    completion (createSaveButtons (Some sys) item) = Normal r
    /\ forall bs, r = Some bs ->
         bs <> []
         /\ exists it,
              item = Some it
              /\ forall b, b ∈ bs ->
                   caption_ability b = table !! data_ability b ≫= ability_label
                   /\ data_dc b
                      = (if nullish (default VUndefined (getSaveDC it)) then
                           if nullish (default VUndefined (dc <$> save it))
                           then VNum (NInt 10)
                           else default VUndefined (dc <$> save it)
                         else default VUndefined (getSaveDC it))
                   /\ nullish (data_dc b) = false.
Proof.
  intros Ht. destruct item as [item|].
  - rewrite (createSaveButtons_eq sys table item Ht). eexists.
    split; [reflexivity|]. intros bs Hbs.
    destruct (hasSave item); [|discriminate].
    destruct (extra_saves (Some sys) item) as [|abi l]; [discriminate|].
    injection Hbs as <-. split; [discriminate|].
    exists item. split; [reflexivity|]. intros b Hb.
    change (b ∈ labelled_button table item <$> abi :: l) in Hb.
    apply list_elem_of_fmap in Hb as (x & -> & _).
    split; [reflexivity|]. split; [|by apply coalesce_not_nullish].
    cbn [labelled_button data_dc]. unfold coalesce.
    destruct (nullish (default VUndefined (getSaveDC item))) eqn:Hg.
    + reflexivity.
    + by rewrite Hg.
  - exists None. split; [reflexivity | discriminate].
Qed.

Lemma createSaveButtons_with_table_witness :
  exists bs,
    completion (createSaveButtons (Some system_config) (Some lantern))
    = Normal (Some bs)
    /\ data_ability <$> bs = [lit "str"; lit "toString"; lit "str"]
    /\ forall b, b ∈ bs ->
         caption_ability b = two_abilities !! data_ability b ≫= ability_label
         /\ data_dc b = VNum (NInt 10).
Proof.
  destruct (createSaveButtons_with_table system_config two_abilities
              (Some lantern) eq_refl) as (r & Hr & Hbs).
  vm_compute in Hr. injection Hr as <-. eexists. split; [by vm_compute|].
  split; [reflexivity|].
  destruct (Hbs _ eq_refl) as (_ & it & Hit & Hall). injection Hit as <-.
  intros b Hb. destruct (Hall b Hb) as (Hc & Hd & _).
  split; [exact Hc | exact Hd].
Defined.

(** Without an abilities table the membership test runs on an empty
    object, so only names of inherited members pass it; when one does, the
    label is then read off a table that is not there and
    [createSaveButtons] throws. *)
Lemma createSaveButtons_without_table CONFIG_system item :
  CONFIG_system ≫= abilities = None -> hasSave item = true ->
  Forall (fun abi => inherited abi = true) (extra_saves CONFIG_system item)
  /\ (extra_saves CONFIG_system item = [] ->
      createSaveButtons CONFIG_system (Some item) = mret None)
  /\ (extra_saves CONFIG_system item <> [] ->
      exists e, createSaveButtons CONFIG_system (Some item) = throw e).
Proof.
  intros Ht Hs. split; [|split].
  - apply Forall_forall. intros abi Hin. unfold extra_saves in Hin.
    apply list_elem_of_In, filter_In in Hin as [_ H].
    unfold extra_save in H. apply andb_true_iff in H as [_ H].
    rewrite Ht in H. unfold has_property in H. simpl in H.
    by rewrite lookup_empty in H.
  - intros Hnone. unfold createSaveButtons. rewrite Hs. cbn [negb].
    change (List.filter (extra_save CONFIG_system item)
              (default [] (cfg ← flags_config item; saves cfg)))
      with (extra_saves CONFIG_system item).
    by rewrite Hnone.
  - intros Hsome. unfold createSaveButtons. rewrite Hs. cbn [negb].
    change (List.filter (extra_save CONFIG_system item)
              (default [] (cfg ← flags_config item; saves cfg)))
      with (extra_saves CONFIG_system item).
    destruct (extra_saves CONFIG_system item) as [|abi l]; [done|].
    cbn [length Nat.eqb mapM]. unfold save_button, abilities_label.
    destruct CONFIG_system as [sys|]; [|by eexists].
    simpl in Ht. rewrite Ht. by eexists.
Qed.

Lemma createSaveButtons_without_table_witness :
  exists e, createSaveButtons None (Some trap) = throw e.
Proof.
  destruct (createSaveButtons_without_table None trap eq_refl eq_refl)
    as (_ & _ & H).
  apply H. discriminate.
Defined.

(** The dialog of the saves and the buttons agree on the abilities of the
    table: the box of an ability is shown ticked and enabled exactly when
    [createSaveButtons] makes a button for it. *)
Lemma saveConfig_ticked_rows_are_buttons sys table entries document_id item
    (k : nat) e r :
  abilities sys = Some table -> hasSave item = true ->
  table !! e.1 = Some e.2 ->
  entries !! k = Some e ->
  SaveConfig._prepareContext entries document_id item !! k = Some r ->
  (SaveConfig.ability_value r = true /\ SaveConfig.ability_disabled r = false)
  <-> exists bs b,
        createSaveButtons (Some sys) (Some item) = mret (Some bs)
        /\ b ∈ bs /\ data_ability b = e.1.
Proof.
  intros Ht Hs He Hk Hr. unfold SaveConfig._prepareContext in Hr.
  cbv zeta in Hr. rewrite list_lookup_fmap, Hk in Hr. injection Hr as <-.
  cbn [SaveConfig.ability_value SaveConfig.ability_disabled].
  rewrite bool_decide_eq_true, bool_decide_eq_false, elem_of_list_to_set.
  rewrite (createSaveButtons_eq sys table item Ht), Hs.
  assert (Hin : e.1 ∈ extra_saves (Some sys) item
                <-> e.1 ∈ default [] (cfg ← flags_config item; saves cfg)
                    /\ Some e.1 ≠ save item ≫= ability).
  { unfold extra_saves. rewrite list_elem_of_In, filter_In, <- list_elem_of_In.
    unfold extra_save, has_property. simpl. rewrite Ht. simpl. rewrite He.
    rewrite andb_true_iff, orb_true_iff, !bool_decide_eq_true.
    split; [tauto|]. intros [? ?]. split; [done|]. split; [done|].
    left. by eexists. }
  rewrite <- Hin. split.
  - intros Hex. destruct (extra_saves (Some sys) item) as [|abi l] eqn:Hl.
    + by apply not_elem_of_nil in Hex.
    + eexists _, (labelled_button table item e.1). split; [reflexivity|].
      split; [by apply list_elem_of_fmap_2 | reflexivity].
  - intros (bs & b & Heq & Hb & Hab).
    destruct (extra_saves (Some sys) item) as [|abi l] eqn:Hl;
      [discriminate|].
    injection Heq as <-.
    change (b ∈ labelled_button table item <$> abi :: l) in Hb.
    apply list_elem_of_fmap in Hb as (x & -> & Hx).
    simpl in Hab. by subst x.
Qed.

Lemma saveConfig_ticked_rows_are_buttons_witness :
  exists r,
    SaveConfig._prepareContext ability_entries (lit "a1") lantern !! 0%nat
    = Some r
    /\ SaveConfig.ability_value r = true
    /\ SaveConfig.ability_disabled r = false
    /\ exists bs b,
         createSaveButtons (Some system_config) (Some lantern)
         = mret (Some bs)
         /\ b ∈ bs /\ data_ability b = lit "str".
Proof.
  eexists. split; [reflexivity|]. split; [reflexivity|].
  split; [reflexivity|].
  exact (proj1 (saveConfig_ticked_rows_are_buttons system_config two_abilities
                  ability_entries (lit "a1") lantern 0
                  (lit "str", {| ability_label := Some (lit "Strength") |})
                  _ eq_refl eq_refl eq_refl eq_refl eq_refl)
               (conj eq_refl eq_refl)).
Defined.

Lemma reduce_from_ticked (l : list (jsstring * bool)) i acc :
  reduce_from (fun acc (kv : jsstring * bool) (_ : nat) =>
                 if kv.2 then acc ++ [kv.1] else acc) l i acc
  = acc ++ (fst <$> List.filter snd l).
Proof.
  revert i acc. induction l as [|[k v] l IH]; intros i acc; simpl.
  - by rewrite app_nil_r.
  - rewrite IH. destruct v; simpl; [|reflexivity].
    by rewrite <- app_assoc.
Qed.

(** What the dialog of the saves stores makes no button without a label:
    when every box that is submitted ticked belongs to an ability of the
    table, the saves stored are the ticked abilities in the order of the
    form, and [createSaveButtons] then gives, without throwing, one button
    for each of them but the ability of the item's own save, each with the
    label of the table. *)
Lemma saveConfig_submitted_saves_get_labels sys table item raw :
  abilities sys = Some table -> hasSave item = true ->
  (cfg ← flags_config item; saves cfg)
  = Some (SaveConfig._prepareSubmitData raw) ->
  Forall (fun kv : jsstring * bool => kv.2 = true -> is_Some (table !! kv.1))
         (default [] raw) ->
  SaveConfig._prepareSubmitData raw = (fst <$> List.filter snd (default [] raw))
  /\ exists r,
       createSaveButtons (Some sys) (Some item) = mret r
       /\ data_ability <$> default [] r
          = List.filter (fun abi => bool_decide (Some abi ≠ save item ≫= ability))
                        (SaveConfig._prepareSubmitData raw)
       /\ forall b, b ∈ default [] r ->
            exists a, table !! data_ability b = Some a
                      /\ caption_ability b = ability_label a.
Proof.
  intros Ht Hs Hcfg Hall.
  assert (Hpick : SaveConfig._prepareSubmitData raw
                  = (fst <$> List.filter snd (default [] raw))).
  { unfold SaveConfig._prepareSubmitData, reduce.
    by rewrite reduce_from_ticked. }
  split; [exact Hpick|].
  assert (Hown : forall abi, abi ∈ SaveConfig._prepareSubmitData raw ->
                             is_Some (table !! abi)).
  { intros abi. rewrite Hpick. intros Hin.
    apply list_elem_of_fmap in Hin as ([k v] & -> & Hin).
    apply list_elem_of_In, filter_In in Hin as [Hin Hv]. simpl in Hv.
    apply list_elem_of_In in Hin.
    rewrite Forall_forall in Hall. by apply (Hall (k, v)). }
  assert (Hextra : extra_saves (Some sys) item
                   = List.filter
                       (fun abi => bool_decide (Some abi ≠ save item ≫= ability))
                       (SaveConfig._prepareSubmitData raw)).
  { unfold extra_saves. rewrite Hcfg. cbn [default].
    apply filter_ext_in. intros abi Hin. apply list_elem_of_In, Hown in Hin.
    unfold extra_save, has_property. simpl. rewrite Ht. simpl.
    rewrite (bool_decide_eq_true_2 _ Hin). by rewrite andb_true_r. }
  rewrite (createSaveButtons_eq sys table item Ht), Hs, Hextra.
  eexists. split; [reflexivity|].
  assert (Hpicks :
    forall abi,
      abi ∈ List.filter
              (fun abi => bool_decide (Some abi ≠ save item ≫= ability))
              (SaveConfig._prepareSubmitData raw) ->
      is_Some (table !! abi)).
  { intros abi Hin. apply Hown.
    by apply list_elem_of_In, filter_In in Hin as [Hin%list_elem_of_In _]. }
  destruct (List.filter
              (fun abi => bool_decide (Some abi ≠ save item ≫= ability))
              (SaveConfig._prepareSubmitData raw)) as [|abi l];
    [split; [reflexivity|]|].
  - intros b Hb. by apply not_elem_of_nil in Hb.
  - cbn [default]. split; [exact (labelled_button_ability table item _)|].
    intros b Hb. apply list_elem_of_fmap in Hb as (x & -> & Hx).
    destruct (Hpicks x Hx) as [a Ha]. exists a. split; [exact Ha|].
    unfold labelled_button. simpl. by rewrite Ha.
Qed.

Lemma saveConfig_submitted_saves_get_labels_witness :
  SaveConfig._prepareSubmitData one_ticked = [lit "str"]
  /\ exists r,
       createSaveButtons (Some system_config) (Some resaved) = mret r
       /\ data_ability <$> default [] r
          = List.filter
              (fun abi => bool_decide (Some abi ≠ save resaved ≫= ability))
              (SaveConfig._prepareSubmitData one_ticked)
       /\ forall b, b ∈ default [] r ->
            exists a, two_abilities !! data_ability b = Some a
                      /\ caption_ability b = ability_label a.
Proof.
  split; [reflexivity|].
  refine (proj2 (saveConfig_submitted_saves_get_labels system_config
                   two_abilities resaved one_ticked eq_refl eq_refl eq_refl _)).
  repeat constructor; intros _; by eexists.
Defined.

(** ** The weapon picker *)

(** [pickEquippedWeapon] rolls damage at once in one case only: there is
    exactly one weapon to pick from, the button is no attack button, the
    weapon is not versatile and has no group buttons of its own, and it can
    roll damage; the roll then carries the scaled damage of the cantrip as
    [_scaleCantripDamage] gives it. *)
Lemma pickEquippedWeapon_direct_damage CONFIG_system picker weps action w rc :
  pickEquippedWeapon CONFIG_system picker weps action = PickRollDamage w rc
  <-> weps = [w]
      /\ endsWith (default [] action) (lit "attack") = false
      /\ isVersatile (weapon_item w) = false
      /\ createDamageButtons CONFIG_system (weapon_item w) = None
      /\ has_rollDamage (weapon_item w) = true
      /\ rc = _scaleCantripDamage picker.
Proof.
  unfold pickEquippedWeapon. split.
  - destruct weps as [|w0 [|w1 more]]; [discriminate | | discriminate].
    cbn [length Nat.ltb Nat.leb].
    destruct (endsWith _ _); [by destruct (has_rollAttack w0)|].
    destruct (isVersatile (weapon_item w0)) eqn:Hv; [discriminate|].
    cbn [orb].
    destruct (createDamageButtons CONFIG_system (weapon_item w0))
      as [bs|] eqn:Hbs.
    + rewrite bool_decide_eq_true_2 by (by eexists). discriminate.
    + rewrite bool_decide_eq_false_2 by (by intros [? ?]).
      destruct (has_rollDamage (weapon_item w0)) eqn:Hroll; [|discriminate].
      intros [= <- <-]. by repeat split.
  - intros (-> & -> & Hv & Hbs & Hroll & ->).
    cbn [length Nat.ltb Nat.leb]. rewrite Hv, Hbs, Hroll. cbn [orb].
    by rewrite bool_decide_eq_false_2 by (by intros [? ?]).
Qed.

(** The weapon that [pickEquippedWeapon] rolls for, be it the attack or the
    damage, is the only item of the actor that passes the filter of the
    picker: a weapon with an attack and damage, and equipped unless the
    actor is a creature. *)
Lemma pickEquippedWeapon_only_eligible CONFIG_system picker isNPC items action w :
  (pickEquippedWeapon CONFIG_system picker (equippedWeapons isNPC items) action
   = PickRollAttack w
   \/ exists rc,
        pickEquippedWeapon CONFIG_system picker (equippedWeapons isNPC items)
          action
        = PickRollDamage w rc) ->
  equippedWeapons isNPC items = [w]
  /\ w ∈ items
  /\ item_type (weapon_item w) = lit "weapon"
  /\ (isNPC = true \/ equipped w = true)
  /\ hasAttack w = true
  /\ hasDamage (weapon_item w) = true.
Proof.
  intros Hpick.
  assert (Hone : equippedWeapons isNPC items = [w]).
  { unfold pickEquippedWeapon in Hpick.
    destruct (equippedWeapons isNPC items) as [|w0 [|w1 more]];
      [by destruct Hpick as [? | [? ?]] | |
       by destruct Hpick as [? | [? ?]]].
    cbn [length Nat.ltb Nat.leb] in Hpick.
    destruct (endsWith _ _);
      [destruct (has_rollAttack w0)
      |destruct (isVersatile _ || _); [|destruct (has_rollDamage _)]];
      destruct Hpick as [Hpick | [rc Hpick]]; try discriminate; congruence. }
  split; [exact Hone|].
  assert (Hin : In w (equippedWeapons isNPC items)) by (rewrite Hone; by left).
  unfold equippedWeapons in Hin. apply filter_In in Hin as [Hin Hok].
  apply andb_true_iff in Hok as [Hok Hd].
  apply andb_true_iff in Hok as [Hok Ha].
  apply andb_true_iff in Hok as [Ht He].
  apply bool_decide_eq_true in Ht. apply orb_true_iff in He.
  by apply list_elem_of_In in Hin.
Qed.

Lemma pickEquippedWeapon_only_eligible_witness :
  pickEquippedWeapon (Some system_config) hero_picker
    (equippedWeapons false [spare_sword; sword]) (Some (lit "attack"))
  = PickRollAttack sword
  /\ equippedWeapons false [spare_sword; sword] = [sword]
  /\ equipped sword = true.
Proof.
  split; [reflexivity|].
  destruct (pickEquippedWeapon_only_eligible (Some system_config) hero_picker
              false [spare_sword; sword] (Some (lit "attack")) sword
              (or_introl eq_refl))
    as (H1 & _ & _ & [H | H] & _); [discriminate H|].
  exact (conj H1 H).
Defined.

(** ** The buttons of the groups *)

Lemma reduce_from_push {A B} (f : A -> nat -> B) (l : list A) i acc :
  reduce_from (fun acc x j => acc ++ [f x j]) l i acc
  = acc ++ imap (fun j x => f x (i + j)%nat) l.
Proof.
  revert i acc. induction l as [|x l IH]; intros i acc; simpl.
  - by rewrite app_nil_r.
  - rewrite IH, <- app_assoc. simpl. rewrite Nat.add_0_r. do 2 f_equal.
    apply imap_ext. intros j y _. simpl. f_equal. lia.
Qed.

(** The button at a place is the button of the group at that place: its
    [data-group] is the place, which is the index that a click hands to
    [constructParts], and it carries the uuid of the item. *)
Lemma createDamageButtons_numbering CONFIG_system item bs (i : nat) b :
  createDamageButtons CONFIG_system item = Some bs ->
  bs !! i = Some b ->
  data_group b = i
  /\ data_item_uuid b = uuid item
  /\ exists g, configured_groups item !! i = Some g
               /\ b = damage_button CONFIG_system item g i.
Proof.
  unfold createDamageButtons. cbv zeta.
  destruct (negb _); [discriminate|]. intros [= <-].
  unfold reduce. rewrite reduce_from_push. cbn [app].
  rewrite list_lookup_imap.
  change (default [] (cfg ← flags_config item; groups cfg))
    with (configured_groups item).
  destruct (configured_groups item !! i) as [g|]; [|discriminate].
  intros [= <-]. split; [reflexivity|]. split; [reflexivity|]. by exists g.
Qed.

Lemma createDamageButtons_numbering_witness :
  exists bs b,
    createDamageButtons (Some system_config) lantern = Some bs
    /\ bs !! 1%nat = Some b
    /\ data_group b = 1%nat
    /\ data_item_uuid b = lit "Item.a1".
Proof.
  eexists _, _. split; [reflexivity|]. split; [reflexivity|].
  destruct (createDamageButtons_numbering (Some system_config) lantern _ 1 _
              eq_refl eq_refl) as (H1 & H2 & _).
  exact (conj H1 H2).
Defined.

Lemma elem_of_select_from raw i ps p :
  p ∈ select_from raw i ps
  <-> exists j : nat, listed raw (i + j) /\ ps !! j = Some p.
Proof.
  unfold select_from. rewrite list_elem_of_fmap. split.
  - intros ([n q] & -> & Hin). apply list_elem_of_filter in Hin as [Hl Hin].
    apply elem_of_lookup_imap in Hin as (j & y & [= -> ->] & Hj).
    by exists j.
  - intros (j & Hl & Hj). exists ((i + j)%nat, p). split; [reflexivity|].
    apply list_elem_of_filter. split; [exact Hl|].
    apply elem_of_lookup_imap. by exists j, p.
Qed.

Lemma validParts_all item :
  Forall (fun p : DamagePart => p.1 ≠ []) (default [] (damage_parts item)) ->
  validParts item = default [] (damage_parts item).
Proof.
  unfold validParts. induction 1 as [|p ps Hp _ IH]; [reflexivity|].
  simpl. rewrite IH. by rewrite (proj2 (truthy_nonempty p.1) Hp).
Qed.

Lemma listed_nat_indices (js : list nat) (j : nat) :
  listed ((fun n : nat => VNum (NInt (Z.of_nat n))) <$> js) j <-> j ∈ js.
Proof.
  unfold listed. rewrite <- list_fmap_compose, list_elem_of_fmap. split.
  - intros (n & [= Hn] & Hin). apply Nat2Z.inj in Hn. by subst n.
  - intros Hin. by exists j.
Qed.

(** When every damage part has a formula and the indices of a group are
    positions of damage parts, the look of its button goes by the parts
    that a click on it rolls: it is a damage button exactly when the type
    of every part of the selection is a damage type of the system.  A part
    without a formula breaks this: the button then reads its types off the
    parts with a formula, at the same indices. *)
Lemma damage_button_kind_of_rolled_parts CONFIG_system item g (i : nat)
    (js : list nat) :
  Forall (fun p : DamagePart => p.1 ≠ []) (default [] (damage_parts item)) ->
  parts g = Some ((fun n : nat => VNum (NInt (Z.of_nat n))) <$> js) ->
  Forall (fun j => (j < length (default [] (damage_parts item)))%nat) js ->
  kind (damage_button CONFIG_system item g i) = KDamage
  <-> Forall (fun p : DamagePart =>
                type_in (CONFIG_system ≫= damageTypes) (Some p.2) = true)
             (selection (default [] (parts g))
                        (default [] (damage_parts item))).
Proof.
  intros Hall Hg Hjs. unfold damage_button. cbv zeta. cbn [kind].
  rewrite (validParts_all item Hall).
  set (ps := default [] (damage_parts item)) in *.
  rewrite Hg. cbn [default]. unfold id.
  set (tbl := CONFIG_system ≫= damageTypes).
  assert (Hiff :
    forallb (type_in tbl)
      ((fun t => snd <$> array_get_value ps t)
         <$> ((fun n : nat => VNum (NInt (Z.of_nat n))) <$> js)) = true
    <-> Forall (fun p : DamagePart => type_in tbl (Some p.2) = true)
               (selection ((fun n : nat => VNum (NInt (Z.of_nat n))) <$> js)
                          ps)).
  { rewrite forallb_forall, Forall_forall. split.
    - intros H p Hp. apply elem_of_select_from in Hp as (j & Hl & Hj).
      simpl in Hl. apply listed_nat_indices in Hl.
      change (type_in tbl (snd <$> Some p) = true). apply H.
      apply list_elem_of_In, list_elem_of_fmap.
      exists (VNum (NInt (Z.of_nat j))). split.
      + cbn [array_get_value]. by rewrite array_get_index, Hj.
      + exact (list_elem_of_fmap_2
                 (fun n : nat => VNum (NInt (Z.of_nat n))) js j Hl).
    - intros H t Ht.
      apply list_elem_of_In, list_elem_of_fmap in Ht as (v & -> & Hv).
      apply list_elem_of_fmap in Hv as (j & -> & Hj).
      cbn [array_get_value]. rewrite array_get_index.
      rewrite Forall_forall in Hjs. specialize (Hjs j Hj).
      destruct (lookup_lt_is_Some_2 ps j Hjs) as [p Hp]. rewrite Hp. simpl.
      apply H, elem_of_select_from. exists j. split; [|exact Hp].
      simpl. by apply listed_nat_indices. }
  split.
  - intros Hk. apply Hiff. revert Hk.
    destruct (forallb (type_in tbl) _); [done|]. by destruct (forallb _ _).
  - intros HF. apply Hiff in HF. by rewrite HF.
Qed.

Lemma damage_button_kind_of_rolled_parts_witness :
  kind (damage_button (Some typed_config) torch
          {| label := Some (lit "Burn"); parts := Some [VNum (NInt 0)] |} 0)
  = KDamage
  /\ selection [VNum (NInt 0)] (default [] (damage_parts torch)) = [fire].
Proof.
  split; [|reflexivity].
  apply (damage_button_kind_of_rolled_parts (Some typed_config) torch
           {| label := Some (lit "Burn"); parts := Some [VNum (NInt 0)] |}
           0 [0%nat]).
  - repeat constructor; discriminate.
  - reflexivity.
  - repeat constructor.
  - repeat constructor.
Defined.

(** The salve has a first part without a formula: the button of its group
    looks like a damage button, for the type of the third part, while a
    click on it rolls the second part, which heals. *)
Example damage_button_kind_empty_formula :
  (exists bs b,
     createDamageButtons (Some typed_config) salve = Some bs
     /\ bs !! 0%nat = Some b /\ kind b = KDamage)
  /\ constructParts salve (NInt 0)
     = mret (Some [(lit "1d4", lit "healing")]).
Proof. split; [eexists _, _|]; vm_compute; repeat split; reflexivity. Qed.

(** ** The listeners of a chat message *)

Lemma for_each_call {A} (f : A -> HostCall) (l : list A) :
  for_each (fun n => call (f n)) l
  = {| trace := f <$> l; completion := Normal tt |}.
Proof.
  induction l as [|x l IH]; [reflexivity|].
  cbn [for_each]. rewrite IH. reflexivity.
Qed.

(** On an element, [createChatLogListeners] completes normally and attaches
    one listener to every node that one of its three selectors finds: first
    the roll of a group, then the weapon picker, then the saving throw; a
    node found by two selectors gets both listeners. *)
Lemma createChatLogListeners_element html e :
  html = HtmlElement e \/ html = HtmlQueryable e ->
  createChatLogListeners html =
    {| trace :=
         ((fun n => AddEventListener n RollDamageFromChat)
            <$> querySelectorAll e (lit "[data-action^='rollgroup-damage']"))
         ++ ((fun n => AddEventListener n PickEquippedWeapon)
               <$> querySelectorAll e
                     (lit "[data-action^='rollgroup-bladecantrip']"))
         ++ ((fun n => AddEventListener n RollSave)
               <$> querySelectorAll e (lit "[data-action='save'][data-dc]"));
       completion := Normal tt |}.
Proof.
  intros [-> | ->]; unfold createChatLogListeners;
    rewrite !for_each_call; reflexivity.
Qed.

Lemma createChatLogListeners_element_witness :
  createChatLogListeners (HtmlElement chat_card) =
    {| trace := [AddEventListener 1%N RollDamageFromChat;
                 AddEventListener 2%N RollDamageFromChat];
       completion := Normal tt |}.
Proof.
  exact (createChatLogListeners_element (HtmlElement chat_card) chat_card
           (or_introl eq_refl)).
Defined.

(** ** The flavor of a damage roll *)

(** With a localisation that returns, [variantDamageLabels] merges one
    title and one flavor into the configuration of the roll and logs
    nothing; the flavor begins with the title.  A roll without derived
    damage types is titled as healing: the test that every type is a
    healing type holds of no types at all. *)
Lemma variantDamageLabels_title system CONFIG_system (tr : jsstring -> jsstring)
    item :
  exists title flavor,
    variantDamageLabels system CONFIG_system (fun key => mret (tr key))
      (Some item)
    = {| trace := [MergeObject title flavor]; completion := Normal tt |}
    /\ title `prefix_of` flavor
    /\ (title = name item ++ lit " - " ++ tr (system ++ lit ".Healing")
        \/ title = name item ++ lit " - " ++ tr (system ++ lit ".DamageRoll"))
    /\ (default [] (derived_damage_types item) = [] ->
        title = name item ++ lit " - " ++ tr (system ++ lit ".Healing")).
Proof.
  unfold variantDamageLabels, variantDamageLabels_body. cbv zeta.
  rewrite !Outcome_left_identity.
  set (healing := forallb _ (damage_labels item)).
  set (title := name item ++ lit " - "
                  ++ tr (if healing then system ++ lit ".Healing"
                         else system ++ lit ".DamageRoll")).
  assert (Htitle :
    (title = name item ++ lit " - " ++ tr (system ++ lit ".Healing")
     \/ title = name item ++ lit " - " ++ tr (system ++ lit ".DamageRoll"))
    /\ (default [] (derived_damage_types item) = [] ->
        title = name item ++ lit " - " ++ tr (system ++ lit ".Healing"))).
  { subst title. split.
    - destruct healing; [by left | by right].
    - intros Hnone. subst healing. unfold damage_labels. by rewrite Hnone. }
  destruct (_ && _).
  - rewrite !Outcome_left_identity.
    eexists title, _. split; [reflexivity|]. split; [|exact Htitle].
    by apply prefix_app_r.
  - destruct (0 <? _)%nat.
    + rewrite !Outcome_left_identity.
      eexists title, _. split; [reflexivity|]. split; [|exact Htitle].
      by apply prefix_app_r.
    + rewrite !Outcome_left_identity.
      eexists title, _. split; [reflexivity|]. by split.
Qed.

(** ** The versatile group in the dialog of the groups *)

(** The dialog offers the choice of the versatile group only for a
    versatile item with damage, with one choice for each group; the value
    it shows is the number stored in the flag when that is below the number
    of groups.  A value that is not negative names a group, and the choice
    at its place is the label of that group or the placeholder. *)
Lemma prepareContext_versatile type_label localize item v :
  GroupConfig.ctx_versatile (GroupConfig._prepareContext type_label localize item)
  = Some v ->
  hasDamage item = true /\ isVersatile item = true
  /\ length (GroupConfig.choices v) = length (configured_groups item)
  /\ forall z, GroupConfig.versatile_value v = Some z ->
       ToNumber (default VUndefined (versatile <$> flags_config item)) = NInt z
       /\ z < Z.of_nat (length (configured_groups item))
       /\ (0 <= z ->
           exists g, configured_groups item !! Z.to_nat z = Some g
             /\ GroupConfig.choices v !! Z.to_nat z
                = Some (if truthy (default [] (label g))
                        then default [] (label g)
                        else localize (lit "ROLLGROUPS.GroupPlaceholder"))).
Proof.
  unfold GroupConfig._prepareContext. cbv zeta. cbn [GroupConfig.ctx_versatile].
  change (default [] (flags_config item ≫= groups))
    with (configured_groups item).
  destruct (hasDamage item); [|discriminate].
  destruct (isVersatile item); [|discriminate]. cbn [andb].
  intros [= <-]. cbn [GroupConfig.choices GroupConfig.versatile_value].
  split; [reflexivity|]. split; [reflexivity|].
  split; [by rewrite length_fmap, length_imap|].
  intros z. rewrite length_fmap, length_imap.
  destruct (ToNumber _) as [n|]; [|discriminate].
  destruct (n <? _) eqn:Hn; [|discriminate]. intros [= ->].
  apply Z.ltb_lt in Hn. split; [reflexivity|]. split; [exact Hn|].
  intros Hz.
  destruct (lookup_lt_is_Some_2 (configured_groups item) (Z.to_nat z))
    as [g Hg]; [lia|].
  exists g. split; [exact Hg|].
  by rewrite list_lookup_fmap, list_lookup_imap, Hg.
Qed.

Lemma prepareContext_versatile_witness :
  exists v,
    GroupConfig.ctx_versatile (GroupConfig._prepareContext id id staff)
    = Some v
    /\ GroupConfig.versatile_value v = Some 1
    /\ length (GroupConfig.choices v) = 2%nat.
Proof.
  eexists. split; [reflexivity|]. split; [reflexivity|].
  destruct (prepareContext_versatile id id staff _ eq_refl) as (_ & _ & H & _).
  exact H.
Defined.

(** ** What [constructParts] and the two rolls never do *)

Lemma select_from_sublist raw i ps : select_from raw i ps `sublist_of` ps.
Proof.
  revert i. induction ps as [|p ps IH]; intros i; [constructor|].
  rewrite select_from_cons.
  destruct (decide (listed raw i)); simpl.
  - by apply sublist_skip.
  - by apply sublist_cons.
Qed.

(** [constructParts] never gives an empty array and never gives a part
    twice or out of order: what it gives is taken from the damage parts of
    the item by leaving parts out.  It notifies the user exactly when it
    gives [false], and then once. *)
Lemma constructParts_sublist item idx :
  exists r,
    completion (constructParts item idx) = Normal r
    /\ match r with
       | Some ps =>
           ps <> [] /\ ps `sublist_of` default [] (damage_parts item)
           /\ trace (constructParts item idx) = []
       | None =>
           trace (constructParts item idx)
           = [NotifyError (lit "ROLLGROUPS.RollGroupEmpty")]
       end.
Proof.
  rewrite constructParts_eq. cbv zeta.
  destruct (selection _ _) as [|p sel] eqn:Hsel.
  - by exists None.
  - eexists. split; [reflexivity|]. split; [discriminate|].
    split; [|reflexivity]. rewrite <- Hsel. apply select_from_sublist.
Qed.

(** An item without the method [rollDamage]: a click on a group button
    that selects parts clones the item, prepares the clone and then throws,
    for the call on the clone is not guarded there; [rollDamageGroup] makes
    the same host calls and gives [undefined]. *)
Lemma rollDamageFromChat_without_rollDamage {Event Options : Type}
    (click : ChatClick Event) (item : Item)
    (config : RollDamageConfig Event Options) :
  itemData click = None -> item_by_uuid click = Some item ->
  has_rollDamage item = false ->
  selection (group_parts item (chat_group click))
            (default [] (damage_parts item)) <> [] ->
  (exists e, completion (rollDamageFromChat click) = Throw e)
  /\ completion (rollDamageGroup item (chat_group click) config)
     = Normal RollUndefined
  /\ trace (rollDamageFromChat click)
     = trace (rollDamageGroup item (chat_group click) config).
Proof.
  intros Hdata Huuid Hroll Hsel.
  rewrite (rollDamageFromChat_by_uuid click item Hdata Huuid).
  rewrite rollDamageGroup_eq.
  destruct (selection _ _) as [|p sel] eqn:Hs; [done|].
  destruct (configured_groups item) as [|g gs] eqn:Hgs.
  - exfalso.
    assert (Hraw : group_parts item (chat_group click) = []).
    { apply group_parts_none. intros i _. by rewrite Hgs. }
    rewrite Hraw in Hs. unfold selection in Hs.
    by rewrite select_from_no_indices in Hs.
  - rewrite Hroll. unfold rollDamage_optional. simpl. rewrite Hroll.
    split; [by eexists|]. by split.
Qed.

Lemma rollDamageFromChat_without_rollDamage_witness :
  (exists e, completion (rollDamageFromChat stub_click) = Throw e)
  /\ completion (rollDamageGroup stub_torch (NInt 0) plain_roll)
     = Normal RollUndefined
  /\ trace (rollDamageFromChat stub_click)
     = [ItemClone stub_torch [fire];
        PrepareData (with_damage_parts stub_torch [fire])].
Proof.
  destruct (rollDamageFromChat_without_rollDamage stub_click stub_torch
              plain_roll eq_refl eq_refl eq_refl)
    as (H1 & H2 & H3); [discriminate|].
  exact (conj H1 (conj H2 (eq_trans H3 eq_refl))).
Defined.
